(** * Upload validation of [app/lib/storage/validation.ts]

    A shallow embedding of the upload validator: magic-byte sniffing
    ([detectMimeType]), the two size checks, and the per-file and per-batch
    validators, followed by the properties the specification states about
    them.

    Conventions of the embedding.
    - A Node [Buffer] is a [list byte]; [buffer[i]] is stdpp's list lookup
      [buffer !! i], which is [None] exactly where JavaScript yields
      [undefined].
    - JavaScript numbers that hold byte counts or byte values are [Z].  The
      only arithmetic of the module is the sum of the declared sizes of a
      batch, which is exact on doubles below 2^53.
    - The string-literal union [AllowedMimeType] is an enumeration, and
      [mimeTypeString] gives back the literal.
    - [async] functions run in the monad [Async], whose state is the log of
      the files whose content has been read through [file.arrayBuffer()]:
      this is the only effect of the module. *)

From Stdlib Require Import ZArith NArith Lia Bool.
From Stdlib Require Import Strings.Byte Strings.Ascii Strings.String.
From Stdlib Require DecimalPos.
From stdpp Require Import base list strings gmap.

Local Open Scope Z_scope.

(** ** Data model *)

Inductive AllowedMimeType : Type :=
  | image_png
  | image_jpeg
  | image_gif
  | image_webp.

Definition mimeTypeString (m : AllowedMimeType) : string :=
  match m with
  | image_png => "image/png"
  | image_jpeg => "image/jpeg"
  | image_gif => "image/gif"
  | image_webp => "image/webp"
  end.

Definition ALLOWED_MIME_TYPES : list string :=
  ["image/png"; "image/jpeg"; "image/gif"; "image/webp"]%string.

Definition AllowedMimeType_eqb (a b : AllowedMimeType) : bool :=
  match a, b with
  | image_png, image_png
  | image_jpeg, image_jpeg
  | image_gif, image_gif
  | image_webp, image_webp => true
  | _, _ => false
  end.

Definition MAX_FILE_SIZE : Z := 5 * 1024 * 1024.
Definition MAX_TOTAL_SIZE : Z := 20 * 1024 * 1024.

(** A [Buffer]: a sequence of octets. *)
Definition Buffer : Type := list byte.

(** The numeric value [buffer[i]] evaluates to, for an octet of the buffer. *)
Definition byteValue (b : byte) : Z := Z.of_N (Byte.to_N b).

(** [MAGIC_BYTES], as [Object.entries] enumerates it: string keys in
    insertion order. *)
Definition MAGIC_BYTES : list (AllowedMimeType * list (list Z)) :=
  [ (image_png, [[0x89; 0x50; 0x4e; 0x47; 0x0d; 0x0a; 0x1a; 0x0a]]);
    (image_jpeg,
      [ [0xff; 0xd8; 0xff; 0xe0];
        [0xff; 0xd8; 0xff; 0xe1];
        [0xff; 0xd8; 0xff; 0xe2];
        [0xff; 0xd8; 0xff; 0xdb];
        [0xff; 0xd8; 0xff; 0xee] ]);
    (image_gif,
      [ [0x47; 0x49; 0x46; 0x38; 0x37; 0x61];
        [0x47; 0x49; 0x46; 0x38; 0x39; 0x61] ]);
    (image_webp, [[0x52; 0x49; 0x46; 0x46]]) ].

(** ** Primitives of the run time used by the module *)

(** [buffer[index] === byte]: an index past the end reads [undefined], which
    is strictly equal to no number. *)
Definition indexEquals (buffer : Buffer) (index : nat) (byte : Z) : bool :=
  match buffer !! index with
  | Some b => byteValue b =? byte
  | None => false
  end.

(** [Array.prototype.every] with the two-argument callback [(x, index)]. *)
Fixpoint every_from {A : Type} (f : A -> nat -> bool) (index : nat)
    (l : list A) : bool :=
  match l with
  | [] => true
  | x :: l' => f x index && every_from f (S index) l'
  end.

Definition every {A : Type} (f : A -> nat -> bool) (l : list A) : bool :=
  every_from f 0 l.

(** [buffer.slice(start, end)] for [0 <= start <= end]; the end is clamped to
    the length of the buffer. *)
Definition slice (start end_ : nat) (buffer : Buffer) : Buffer :=
  take (end_ - start) (drop start buffer).

(** [buffer.toString("ascii")].  Node's decoder for the 'ascii' encoding
    unsets the highest bit of each octet and then decodes it as 'latin1'
    (Node documentation, Buffers and character encodings): the character
    has the code [octet & 0x7f]. *)
Definition asciiChar (b : byte) : ascii :=
  Ascii.ascii_of_N (N.land (Byte.to_N b) 0x7f).

Fixpoint toString_ascii (buffer : Buffer) : string :=
  match buffer with
  | [] => EmptyString
  | b :: rest => String (asciiChar b) (toString_ascii rest)
  end.

(** ** [detectMimeType] *)

(** The body of the inner loop over the signatures of one entry.  [Some m] is
    a [return m] out of the function; [None] is the loop running to its end.
    [continue] moves to the next signature. *)
Fixpoint scanSignatures (mimeType : AllowedMimeType) (buffer : Buffer)
    (signatures : list (list Z)) : option AllowedMimeType :=
  match signatures with
  | [] => None
  | signature :: rest =>
      if (length signature <=? length buffer)%nat then
        let matches := every (fun byte index => indexEquals buffer index byte)
                             signature in
        if matches then
          if AllowedMimeType_eqb mimeType image_webp then
            if (12 <=? length buffer)%nat then
              let webpMarker := toString_ascii (slice 8 12 buffer) in
              if String.eqb webpMarker "WEBP" then Some mimeType
              else scanSignatures mimeType buffer rest
            else scanSignatures mimeType buffer rest
          else Some mimeType
        else scanSignatures mimeType buffer rest
      else scanSignatures mimeType buffer rest
  end.

(** The outer loop over the entries. *)
Fixpoint scanEntries (buffer : Buffer)
    (entries : list (AllowedMimeType * list (list Z)))
    : option AllowedMimeType :=
  match entries with
  | [] => None
  | (mimeType, signatures) :: rest =>
      match scanSignatures mimeType buffer signatures with
      | Some m => Some m
      | None => scanEntries buffer rest
      end
  end.

Definition detectMimeType (buffer : Buffer) : option AllowedMimeType :=
  scanEntries buffer MAGIC_BYTES.

Definition isAllowedMimeType (mimeType : string) : bool :=
  existsb (String.eqb mimeType) ALLOWED_MIME_TYPES.

Definition validateFileSize (size : Z) : bool :=
  (size >? 0) && (size <=? MAX_FILE_SIZE).

Definition validateTotalSize (totalSize : Z) : bool :=
  totalSize <=? MAX_TOTAL_SIZE.

Definition getFileExtension (mimeType : AllowedMimeType) : string :=
  match mimeType with
  | image_png => ".png"
  | image_jpeg => ".jpg"
  | image_gif => ".gif"
  | image_webp => ".webp"
  end.

(** ** Files, results and the effect of reading a file *)

(** A [File] as the validators use it: its name and its MIME type as the
    client declared them, its declared size, and the octets that
    [arrayBuffer()] resolves to. *)
Module File.
Record t : Type := make {
  name : string;
  type : string;
  size : Z;
  content : Buffer;
}.
End File.
Abbreviation File := File.t.

Record FileValidationResult : Type := {
  valid : bool;
  error : option string;
  mimeType : option AllowedMimeType;
}.

(** An element [{ file, mimeType }] of [validatedFiles].  The non-null
    assertion [result.mimeType!] is erased by the compiler, so the element
    holds whatever [result.mimeType] is at run time. *)
Definition ValidatedFile : Type := (File * option AllowedMimeType)%type.

(** [FileValidationResult & { validatedFiles?: ... }]: the three fields of
    [FileValidationResult] and the optional list. *)
Record BatchValidationResult : Type := {
  result : FileValidationResult;
  validatedFiles : option (list ValidatedFile);
}.

(** Computations that may [await]: the state is the log of the files whose
    content has been read, oldest first. *)
Definition Async (A : Type) : Type := list File -> A * list File.

Definition ret {A : Type} (a : A) : Async A := fun log => (a, log).

Definition bind {A B : Type} (m : Async A) (k : A -> Async B) : Async B :=
  fun log => let (a, log') := m log in k a log'.

Notation "x <- m ;; k" := (bind m (fun x => k))
  (at level 100, m at next level, right associativity).

(** [await file.arrayBuffer()] *)
Definition arrayBuffer (file : File) : Async Buffer :=
  fun log => (File.content file, log ++ [file]).

(** [Buffer.from(arrayBuffer)] copies the octets. *)
Definition Buffer_from (arrayBuffer : Buffer) : Buffer := arrayBuffer.

(** The character U+0022, which delimits the file name in the messages. *)
Definition quote : string := String (Ascii.ascii_of_nat 34) EmptyString.

Definition sizeMessage (name : string) : string :=
  "File " +:+ quote +:+ name +:+ quote +:+ " exceeds maximum size of 5MB".

Definition imageMessage (name : string) : string :=
  "File " +:+ quote +:+ name +:+ quote
    +:+ " is not a valid image (PNG, JPG, GIF, or WebP)".

Definition totalMessage : string := "Total file size exceeds 20MB limit".

(** ** [validateFile] and [validateFiles] *)

Definition validateFile (file : File) : Async FileValidationResult :=
  if negb (validateFileSize (File.size file)) then
    ret {| valid := false;
           error := Some (sizeMessage (File.name file));
           mimeType := None |}
  else
    arrayBuffer <- arrayBuffer file ;;
    let buffer := Buffer_from arrayBuffer in
    let detectedMimeType := detectMimeType buffer in
    match detectedMimeType with
    | None =>
        ret {| valid := false;
               error := Some (imageMessage (File.name file));
               mimeType := None |}
    | Some detected =>
        ret {| valid := true; error := None; mimeType := Some detected |}
    end.

(** The loop [for (const file of files)] of [validateFiles], from the files
    still to visit and the [validatedFiles] array built so far. *)
Fixpoint validateEach (files : list File) (validated : list ValidatedFile)
    : Async BatchValidationResult :=
  match files with
  | [] =>
      ret {| result := {| valid := true; error := None; mimeType := None |};
             validatedFiles := Some validated |}
  | file :: rest =>
      r <- validateFile file ;;
      if negb (valid r) then
        ret {| result := r; validatedFiles := None |}
      else
        validateEach rest (validated ++ [(file, mimeType r)])
  end.

(** [files.reduce((sum, file) => sum + file.size, 0)] *)
Definition sumOfSizes (files : list File) : Z :=
  fold_left (fun sum file => sum + File.size file) files 0.

Definition validateFiles (files : list File) : Async BatchValidationResult :=
  if (length files =? 0)%nat then
    ret {| result := {| valid := true; error := None; mimeType := None |};
           validatedFiles := Some [] |}
  else
    let totalSize := sumOfSizes files in
    if negb (validateTotalSize totalSize) then
      ret {| result := {| valid := false;
                          error := Some totalMessage;
                          mimeType := None |};
             validatedFiles := None |}
    else
      validateEach files [].

(** ** What the specification says [detectMimeType] decides *)

(** [sig] is the beginning of [buffer], octet by octet. *)
Fixpoint startsWith (sig : list Z) (buffer : Buffer) : bool :=
  match sig, buffer with
  | [], _ => true
  | s :: sig', b :: buffer' => (byteValue b =? s) && startsWith sig' buffer'
  | _ :: _, [] => false
  end.

(** The signatures the specification declares for a kind (section 6). *)
Definition declaredSignatures (k : AllowedMimeType) : list (list Z) :=
  match k with
  | image_png => [[0x89; 0x50; 0x4E; 0x47; 0x0D; 0x0A; 0x1A; 0x0A]]
  | image_jpeg =>
      (fun last => [0xFF; 0xD8; 0xFF; last]) <$> [0xE0; 0xE1; 0xE2; 0xDB; 0xEE]
  | image_gif =>
      [ [0x47; 0x49; 0x46; 0x38; 0x37; 0x61];
        [0x47; 0x49; 0x46; 0x38; 0x39; 0x61] ]
  | image_webp => [[0x52; 0x49; 0x46; 0x46]]
  end.

(** The octets of the ASCII text [WEBP]. *)
Definition WEBP_octets : list Z := [0x57; 0x45; 0x42; 0x50].

(** "bytes[8..12) == ASCII WEBP": the four octets at offsets 8 to 11 are
    those of the text. *)
Definition markerIsWEBP (buffer : Buffer) : bool :=
  bool_decide (byteValue <$> slice 8 12 buffer = WEBP_octets).

(** The match of the specification: the beginning of the buffer is one of the
    declared signatures of the kind, and for WEBP the marker is there. *)
Definition declaredMatch (k : AllowedMimeType) (buffer : Buffer) : bool :=
  existsb (fun sig => startsWith sig buffer) (declaredSignatures k)
  && match k with image_webp => markerIsWEBP buffer | _ => true end.

(** ** What the code of [detectMimeType] decides *)

(** The extra check of the code on a buffer whose beginning is [RIFF]. *)
Definition markerDecodesToWEBP (buffer : Buffer) : bool :=
  (12 <=? length buffer)%nat
  && String.eqb (toString_ascii (slice 8 12 buffer)) "WEBP".

(** The test one signature of one entry goes through in the inner loop. *)
Definition accepts (k : AllowedMimeType) (buffer : Buffer) (sig : list Z)
    : bool :=
  startsWith sig buffer
  && (if AllowedMimeType_eqb k image_webp then markerDecodesToWEBP buffer
      else true).

(** The octet every signature of a kind starts with. *)
Definition leadingOctet (k : AllowedMimeType) : Z :=
  match k with
  | image_png => 0x89
  | image_jpeg => 0xff
  | image_gif => 0x47
  | image_webp => 0x52
  end.

(** An octet as the ASCII decoder of Node sees it. *)
Definition low7 (b : byte) : Z := Z.land (byteValue b) 0x7f.

(** The match the code performs: as [declaredMatch], with the marker
    compared after decoding. *)
Definition codeMatch (k : AllowedMimeType) (buffer : Buffer) : bool :=
  existsb (fun sig => startsWith sig buffer) (declaredSignatures k)
  && match k with image_webp => markerDecodesToWEBP buffer | _ => true end.

(** The octets at offsets 8 to 11 are all below 0x80. *)
Definition markerIsSevenBit (buffer : Buffer) : Prop :=
  Forall (fun b => byteValue b < 0x80) (slice 8 12 buffer).

(** The value [validateFile] resolves to, and the files it reads. *)
Definition outcome (file : File) : FileValidationResult :=
  fst (validateFile file []).

Definition reads (file : File) : list File := snd (validateFile file []).

(** The three shapes of result the validators build. *)
Definition acceptedAs (k : AllowedMimeType) : FileValidationResult :=
  {| valid := true; error := None; mimeType := Some k |}.

Definition rejectedWith (message : string) : FileValidationResult :=
  {| valid := false; error := Some message; mimeType := None |}.

Definition acceptedBatch (validated : list ValidatedFile)
    : BatchValidationResult :=
  {| result := {| valid := true; error := None; mimeType := None |};
     validatedFiles := Some validated |}.

Definition rejectedBatch (r : FileValidationResult) : BatchValidationResult :=
  {| result := r; validatedFiles := None |}.

(** The signature of PNG as octets of a buffer. *)
Definition png_header : Buffer := [x89; x50; x4e; x47; x0d; x0a; x1a; x0a].

(** The reasons of the specification for a rejection (section 7), each with
    the file it is about where there is one. *)
Inductive RejectionReason : Type :=
  | SizeExceeded (file : File)
  | TotalSizeExceeded
  | UnrecognizedContent (file : File).

(** The message the code gives for a reason. *)
Definition reasonMessage (reason : RejectionReason) : string :=
  match reason with
  | SizeExceeded file => sizeMessage (File.name file)
  | TotalSizeExceeded => totalMessage
  | UnrecognizedContent file => imageMessage (File.name file)
  end.

(** *** Sample inputs *)

Definition RIFF : list Z := [0x52; 0x49; 0x46; 0x46].

(** [RIFF], a chunk size, and the four octets of [WEBP] each with its top
    bit set. *)
Definition marker_top_bits : Buffer :=
  [x52; x49; x46; x46; x1a; x00; x00; x00; xd7; xc5; xc2; xd0].

(** [RIFF], a chunk size, [WEB] and the octet of [P] with its top bit set. *)
Definition marker_last_top_bit : Buffer :=
  [x52; x49; x46; x46; x1a; x00; x00; x00; x57; x45; x42; xd0].

(** The beginning of a WAVE file. *)
Definition riff_wave : Buffer :=
  [x52; x49; x46; x46; x24; x08; x00; x00; x57; x41; x56; x45].

Definition riff_webp : Buffer :=
  [x52; x49; x46; x46; x1a; x00; x00; x00; x57; x45; x42; x50].

Definition gif_header : Buffer := [x47; x49; x46; x38; x39; x61].

Definition photo : File :=
  File.make "photo.png" "image/png" 100 (png_header ++ [x00; x00; x00; x0d]).

Definition renamed_photo : File :=
  File.make "notes.txt" "text/plain" 100 (png_header ++ [x00; x00; x00; x0d]).

Definition animation : File :=
  File.make "anim.gif" "image/gif" 2048 (gif_header ++ [x01; x00]).

Definition sound : File := File.make "sound.webp" "image/webp" 2092 riff_wave.

Definition empty_upload : File := File.make "empty.png" "image/png" 0 [].

Definition ten_MiB : File :=
  File.make "a.png" "image/png" (10 * 1024 * 1024) png_header.

Definition eleven_MiB : File :=
  File.make "b.png" "image/png" (11 * 1024 * 1024) png_header.

(** The number of leading octets of a buffer that decide whether it is of a
    kind: the length of the signatures of the kind, and for WEBP the end of
    the marker. *)
Definition decidingLength (k : AllowedMimeType) : nat :=
  match k with
  | image_png => 8
  | image_jpeg => 4
  | image_gif => 6
  | image_webp => 12
  end.

(** [validateFile] accepts the file. *)
Definition accepted (file : File) : Prop :=
  validateFileSize (File.size file) = true
  /\ is_Some (detectMimeType (File.content file)).

(** Five files of 5 MiB each, every one a PNG by its content. *)
Definition five_MiB (name : string) : File :=
  File.make name "image/png" (5 * 1024 * 1024) png_header.

Definition five_full_files : list File :=
  five_MiB <$> ["1.png"; "2.png"; "3.png"; "4.png"; "5.png"]%string.

(** One file whose declared size is over the cap of a batch. *)
Definition thirty_MiB : File :=
  File.make "huge.png" "image/png" (30 * 1024 * 1024) png_header.

(** ** Storage ([app/lib/storage]) *)

(** What a [throw] carries in the modules below: [new Error(message)], or
    the response [redirect(location)] of the router. *)
Inductive Exception : Type :=
  | Error (message : string)
  | Redirect (location : string).

(** How a call ends: it returns a value or it throws. *)
Inductive Completion (A : Type) : Type :=
  | Returned (value : A)
  | Thrown (exception : Exception).
Arguments Returned {A} value.
Arguments Thrown {A} exception.

(** [!value] for a [string | undefined]: the missing value and the empty
    string are falsy. *)
Definition not_ (value : option string) : bool :=
  match value with
  | None => true
  | Some text => String.eqb text ""
  end.

(** [value || fallback] for a [string | undefined]. *)
Definition orElse (value : option string) (fallback : string) : string :=
  match value with
  | None => fallback
  | Some text => if String.eqb text "" then fallback else text
  end.

(** The object [getConfig] returns.  The first three fields hold what
    [process.env] gave, a [string | undefined] at run time. *)
Record StorageConfig : Type := {
  endpoint : option string;
  accessKey : option string;
  secretKey : option string;
  bucket : string;
  region : string;
}.

Definition missingConfiguration : string :=
  "MinIO configuration missing. Set MINIO_ENDPOINT, MINIO_ACCESS_KEY, and MINIO_SECRET_KEY.".

(** [getConfig], from [process.env] as a finite map. *)
Definition getConfig (env : gmap string string) : Completion StorageConfig :=
  let endpoint := env !! "MINIO_ENDPOINT"%string in
  let accessKey := env !! "MINIO_ACCESS_KEY"%string in
  let secretKey := env !! "MINIO_SECRET_KEY"%string in
  let bucket := orElse (env !! "MINIO_BUCKET"%string) "uploads" in
  let region := orElse (env !! "MINIO_REGION"%string) "us-east-1" in
  if not_ endpoint || not_ accessKey || not_ secretKey then
    Thrown (Error missingConfiguration)
  else
    Returned {| endpoint := endpoint; accessKey := accessKey;
                secretKey := secretKey; bucket := bucket; region := region |}.

(** An [S3Client], known by the options it was built with. *)
Record S3Client : Type := {
  client_endpoint : option string;
  client_region : string;
  accessKeyId : option string;
  secretAccessKey : option string;
  forcePathStyle : bool;
}.

Inductive Command : Type :=
  | PutObjectCommand (Bucket Key : string) (Body : Buffer)
      (ContentType : string)
  | GetObjectCommand (Bucket Key : string)
  | DeleteObjectCommand (Bucket Key : string).

(** What [client.send] resolves to, as far as the module reads it:
    [response.Body], and the octets [transformToByteArray()] gives. *)
Record Response : Type := { ResponseBody : option Buffer }.

(** The state of the module: the variable [s3Client], and the calls of
    [client.send] made so far, oldest first. *)
Record Storage : Type := {
  s3Client : option S3Client;
  sent : list (S3Client * Command);
}.

(** The service behind [client.send]: how the call with a command ends. *)
Definition Send : Type := S3Client -> Command -> Completion Response.

(** Calls that use the state of the module and may throw. *)
Definition Stateful (A : Type) : Type := Storage -> Completion A * Storage.

Definition andThen {A B : Type} (m : Stateful A) (k : A -> Stateful B)
    : Stateful B :=
  fun st =>
    match m st with
    | (Returned a, st') => k a st'
    | (Thrown e, st') => (Thrown e, st')
    end.

Notation "x <~ m ;; k" := (andThen m (fun x => k))
  (at level 100, m at next level, right associativity).

(** A call that touches no state. *)
Definition pure_ {A : Type} (c : Completion A) : Stateful A :=
  fun st => (c, st).

(** [new S3Client({ endpoint, region, credentials, forcePathStyle: true })]
    with the fields of [config]. *)
Definition newS3Client (config : StorageConfig) : S3Client :=
  {| client_endpoint := endpoint config;
     client_region := region config;
     accessKeyId := accessKey config;
     secretAccessKey := secretKey config;
     forcePathStyle := true |}.

Definition getS3Client (env : gmap string string) : Stateful S3Client :=
  fun st =>
    match s3Client st with
    | Some client => (Returned client, st)
    | None =>
        match getConfig env with
        | Thrown e => (Thrown e, st)
        | Returned config =>
            let client := newS3Client config in
            (Returned client, {| s3Client := Some client; sent := sent st |})
        end
    end.

(** [await client.send(command)] *)
Definition client_send (send : Send) (client : S3Client) (command : Command)
    : Stateful Response :=
  fun st =>
    (send client command,
     {| s3Client := s3Client st; sent := sent st ++ [(client, command)] |}).

Definition uploadFile (send : Send) (env : gmap string string)
    (key : string) (buffer : Buffer) (contentType : string) : Stateful unit :=
  client <~ getS3Client env ;;
  config <~ pure_ (getConfig env) ;;
  _ <~ client_send send client
         (PutObjectCommand (bucket config) key buffer contentType) ;;
  pure_ (Returned tt).

Definition deleteFile (send : Send) (env : gmap string string) (key : string)
    : Stateful unit :=
  client <~ getS3Client env ;;
  config <~ pure_ (getConfig env) ;;
  _ <~ client_send send client (DeleteObjectCommand (bucket config) key) ;;
  pure_ (Returned tt).

Definition downloadFile (send : Send) (env : gmap string string)
    (key : string) : Stateful Buffer :=
  client <~ getS3Client env ;;
  config <~ pure_ (getConfig env) ;;
  response <~ client_send send client
                (GetObjectCommand (bucket config) key) ;;
  match ResponseBody response with
  | None => pure_ (Thrown (Error ("No body returned for key: " +:+ key)))
  | Some octets => pure_ (Returned (Buffer_from octets))
  end.

(** *** Strings as UTF-16 code units

    A regular expression without the [u] flag works on the code units of a
    string, so the strings that go through one are lists of code units. *)
Abbreviation JSString := (list N).

(** The code units of a text of the source, which is ASCII. *)
Definition units (text : string) : JSString :=
  Ascii.N_of_ascii <$> list_ascii_of_string text.

Definition inRange (low high unit : N) : bool :=
  ((low <=? unit) && (unit <=? high))%N.

(** The class [a-zA-Z0-9.-] *)
Definition isKeyUnit (unit : N) : bool :=
  inRange 97 122 unit || inRange 65 90 unit || inRange 48 57 unit
  || (unit =? 46)%N || (unit =? 45)%N.

(** [text.replace(/[class]/g, replacement)] where a match is one code unit
    and the replacement holds no [$]. *)
Definition replaceUnits (inClass : N -> bool) (replacement : JSString)
    (text : JSString) : JSString :=
  text ≫= (fun unit => if inClass unit then replacement else [unit]).

(** The decimal digits of a number, most significant first. *)
Fixpoint digitUnits (d : Decimal.uint) : JSString :=
  match d with
  | Decimal.Nil => []
  | Decimal.D0 d => 48%N :: digitUnits d
  | Decimal.D1 d => 49%N :: digitUnits d
  | Decimal.D2 d => 50%N :: digitUnits d
  | Decimal.D3 d => 51%N :: digitUnits d
  | Decimal.D4 d => 52%N :: digitUnits d
  | Decimal.D5 d => 53%N :: digitUnits d
  | Decimal.D6 d => 54%N :: digitUnits d
  | Decimal.D7 d => 55%N :: digitUnits d
  | Decimal.D8 d => 56%N :: digitUnits d
  | Decimal.D9 d => 57%N :: digitUnits d
  end.

(** The text of an integer in a template literal; integers below 10^21 in
    absolute value, as every value of [Date.now()] is, are written in
    decimal without exponent. *)
Definition numberToString (n : Z) : JSString :=
  match Z.to_int n with
  | Decimal.Pos d => digitUnits d
  | Decimal.Neg d => 45%N :: digitUnits d
  end.

(** The name [generateStorageKey] derives from the file name. *)
Definition safeName (filename : JSString) : JSString :=
  replaceUnits (fun unit => negb (isKeyUnit unit)) (units "_") filename.

(** [generateStorageKey], from the value [now] of [Date.now()]. *)
Definition generateStorageKey (now : Z) (folder entityId filename : JSString)
    : JSString :=
  let timestamp := now in
  let safeName := safeName filename in
  folder ++ units "/" ++ entityId ++ units "/"
    ++ numberToString timestamp ++ units "-" ++ safeName.

(** The last segment of a key. *)
Definition keySegment (now : Z) (filename : JSString) : JSString :=
  numberToString now ++ units "-" ++ safeName filename.

(** A code unit of the class of key units, or the underscore. *)
Definition isSegmentUnit (unit : N) : bool := isKeyUnit unit || (unit =? 95)%N.

Definition sample_env : gmap string string :=
  list_to_map [("MINIO_ENDPOINT", "http://localhost:9000");
               ("MINIO_ACCESS_KEY", "minio"); ("MINIO_SECRET_KEY", "secret");
               ("MINIO_BUCKET", "")]%string.

(** The variables [getConfig] requires. *)
Definition requiredVariables : list string :=
  ["MINIO_ENDPOINT"; "MINIO_ACCESS_KEY"; "MINIO_SECRET_KEY"]%string.

(** The client a call works with: the one in [s3Client], or a new one. *)
Definition clientFor (config : StorageConfig) (st : Storage) : S3Client :=
  match s3Client st with
  | Some client => client
  | None => newS3Client config
  end.

(** The state after one call of [client.send]. *)
Definition afterSend (client : S3Client) (command : Command) (st : Storage)
    : Storage :=
  {| s3Client := Some client; sent := sent st ++ [(client, command)] |}.

(** An environment with another endpoint and another bucket. *)
Definition other_env : gmap string string :=
  list_to_map [("MINIO_ENDPOINT", "https://s3.example.org");
               ("MINIO_ACCESS_KEY", "other"); ("MINIO_SECRET_KEY", "key");
               ("MINIO_BUCKET", "media")]%string.

Definition fresh : Storage := {| s3Client := None; sent := [] |}.

(** A service that stores nothing: every object is without body. *)
Definition no_body : Send := fun _ _ => Returned {| ResponseBody := None |}.

(** The replacement of [safeName], unit by unit. *)
Definition safeUnit (unit : N) : N := if isKeyUnit unit then unit else 95%N.

(** ** The setup script ([scripts/setup.js]) *)

(** The class [a-z0-9-] *)
Definition isNameUnit (unit : N) : bool :=
  inRange 97 122 unit || inRange 48 57 unit || (unit =? 45)%N.

(** [defaultName], from [path.basename(cwd).toLowerCase()]. *)
Definition defaultName (lowerBaseName : JSString) : JSString :=
  replaceUnits (fun unit => negb (isNameUnit unit)) (units "-") lowerBaseName.

(** [projectName], from the answer to the question: [answer || defaultName],
    where the empty answer is falsy. *)
Definition projectName (answer defaultName : JSString) : JSString :=
  match answer with
  | [] => defaultName
  | _ :: _ => answer
  end.

(** [projectName.replace(/-/g, "_")] *)
Definition dbName (projectName : JSString) : JSString :=
  replaceUnits (fun unit => (unit =? 45)%N) (units "_") projectName.

Definition containerName (projectName : JSString) : JSString :=
  projectName ++ units "-db".

(** The class [a-z0-9_] *)
Definition isDbUnit (unit : N) : bool :=
  inRange 97 122 unit || inRange 48 57 unit || (unit =? 95)%N.

(** The loop that waits for PostgreSQL.  [isReady n] tells whether the probe
    [pg_isready] succeeds when [attempts] is [n]; the probe runs once for
    each value of [attempts].  [fuel] bounds the number of iterations, and
    [None] is a loop that has not ended within it. *)
Fixpoint waitLoop (isReady : nat -> bool) (fuel attempts : nat) : option nat :=
  match fuel with
  | O => None
  | S fuel' =>
      if (attempts <? 30)%nat then
        if isReady attempts then Some attempts
        else waitLoop isReady fuel' (S attempts)
      else Some attempts
  end.

(** The test [attempts >= 30] after the loop: the script gives up. *)
Definition givesUp (attempts : nat) : bool := (30 <=? attempts)%nat.

(** ** The session guards ([app/lib/auth.server.ts]) *)

(** A request, as far as the guards use it. *)
Record Request (Headers : Type) : Type := {
  request_url : string;
  request_headers : Headers;
}.
Arguments request_url {Headers} _.
Arguments request_headers {Headers} _.

(** [getSession], from the function [auth.api.getSession] of the
    authentication library, which resolves to a session or to [null]. *)
Definition getSession {Headers Session : Type}
    (auth_api_getSession : Headers -> option Session)
    (request : Request Headers) : option Session :=
  let session := auth_api_getSession (request_headers request) in
  session.

Definition requireSession {Headers Session : Type}
    (auth_api_getSession : Headers -> option Session)
    (request : Request Headers) : Completion Session :=
  match getSession auth_api_getSession request with
  | None => Thrown (Redirect "/login")
  | Some session => Returned session
  end.

Definition requireNoSession {Headers Session : Type}
    (auth_api_getSession : Headers -> option Session)
    (request : Request Headers) : Completion unit :=
  match getSession auth_api_getSession request with
  | Some _ => Thrown (Redirect "/")
  | None => Returned tt
  end.

(** ** The field errors of the registration form ([routes/register.tsx]) *)

(** An element of the path of an issue: a [string | number]; the numbers
    are the indices of arrays. *)
Inductive PathKey : Type :=
  | PathName (name : string)
  | PathIndex (index : N).

Record ZodIssue : Type := {
  path : list PathKey;
  message : string;
}.

(** The text of a string of code units below 256. *)
Definition textOf (text : JSString) : string :=
  string_of_list_ascii (Ascii.ascii_of_N <$> text).

(** Whether [issue.path[0]] is truthy: it is there, and is neither the
    empty string nor 0. *)
Definition truthyKey (key : option PathKey) : bool :=
  match key with
  | None => false
  | Some (PathName name) => negb (String.eqb name "")
  | Some (PathIndex index) => negb (index =? 0)%N
  end.

(** The property name a path element stands for. *)
Definition propertyName (key : PathKey) : string :=
  match key with
  | PathName name => name
  | PathIndex index => textOf (numberToString (Z.of_N index))
  end.

(** [object[name] = value] on an object literal of strings: the name
    [__proto__] reaches the setter of the prototype, which ignores a string,
    and every other name becomes an own property. *)
Definition setProperty (name value : string) (object : gmap string string)
    : gmap string string :=
  if String.eqb name "__proto__" then object else <[name := value]> object.

(** The body of the loop over the issues. *)
Definition recordIssue (fieldErrors : gmap string string) (issue : ZodIssue)
    : gmap string string :=
  if truthyKey (head (path issue)) then
    match head (path issue) with
    | Some key => setProperty (propertyName key) (message issue) fieldErrors
    | None => fieldErrors
    end
  else fieldErrors.

(** [fieldErrors] after the loop. *)
Definition fieldErrorsOf (issues : list ZodIssue) : gmap string string :=
  fold_left recordIssue issues ∅.

(** The field an issue is recorded under, if it is recorded. *)
Definition fieldOf (issue : ZodIssue) : option string :=
  match head (path issue) with
  | Some key =>
      if truthyKey (Some key) && negb (String.eqb (propertyName key) "__proto__")
      then Some (propertyName key) else None
  | None => None
  end.

(** ** The error page ([components/route-error-boundary.tsx]) *)

(** What [useRouteError()] gives: a route error response, an [Error], or
    any other value. *)
Inductive RouteError : Type :=
  | ErrorResponse (status : Z) (statusText : string)
  | ErrorObject (errorMessage : string)
  | OtherError.

(** What the page shows. *)
Record ErrorView : Type := {
  statusCode : option Z;
  title : string;
  description : string;
}.

(** [text || fallback] for a string. *)
Definition textOr (text fallback : string) : string :=
  if String.eqb text "" then fallback else text.

Definition genericTitle : string := "Something went wrong".
Definition genericDescription : string :=
  "An unexpected error occurred. Please try again.".

(** The apostrophe of the descriptions. *)
Definition apostrophe : string := String (Ascii.ascii_of_nat 39) EmptyString.

(** The title, the description and the status code that
    [RouteErrorBoundary] computes before it renders; [DEV] is
    [import.meta.env.DEV]. *)
Definition describeError (DEV : bool) (error : RouteError) : ErrorView :=
  let title := genericTitle in
  let description := genericDescription in
  match error with
  | ErrorResponse status statusText =>
      if (status =? 404) then
        {| statusCode := Some status;
           title := "Not found";
           description :=
             textOr statusText
               ("The page you" +:+ apostrophe +:+ "re looking for doesn"
                  +:+ apostrophe +:+ "t exist.") |}
      else if (status =? 403) then
        {| statusCode := Some status;
           title := "Access denied";
           description :=
             textOr statusText
               ("You don" +:+ apostrophe
                  +:+ "t have permission to view this page.") |}
      else if (status =? 401) then
        {| statusCode := Some status;
           title := "Unauthorized";
           description := textOr statusText "Please sign in to continue." |}
      else
        {| statusCode := Some status;
           title := "Error " +:+ textOf (numberToString status);
           description := textOr statusText description |}
  | ErrorObject errorMessage =>
      if DEV then
        {| statusCode := None; title := title; description := errorMessage |}
      else {| statusCode := None; title := title; description := description |}
  | OtherError =>
      {| statusCode := None; title := title; description := description |}
  end.

(** Issues as the schema of the registration form gives them, with one
    issue that has no path. *)
Definition sample_issues : list ZodIssue :=
  [ {| path := [PathName "email"]; message := "Please enter a valid email" |};
    {| path := []; message := "Invalid input" |};
    {| path := [PathName "password"];
       message := "Password must be at least 8 characters" |};
    {| path := [PathName "email"]; message := "Email is taken" |} ]%string.

(** ** The validators when a read can fail

    [file.arrayBuffer()] is the one operation of the validators that can
    end in an exception: an index past the end of a buffer reads
    [undefined], [slice] clamps, [reduce] has an initial value, and
    [Buffer.from] takes every array buffer.  Here the read is the
    collaborator it is, and a validator can throw. *)

(** What [file.arrayBuffer()] does for each file: it resolves to octets or
    rejects with an exception. *)
Definition Reader : Type := File -> Completion Buffer.

(** Computations that may [await] and may throw: the log of the reads, as
    in [Async], and how the call ends. *)
Definition Attempt (A : Type) : Type := list File -> Completion A * list File.

Definition attempt {A : Type} (a : A) : Attempt A :=
  fun log => (Returned a, log).

(** An exception of the first computation ends the whole computation. *)
Definition attemptThen {A B : Type} (m : Attempt A) (k : A -> Attempt B)
    : Attempt B :=
  fun log =>
    match m log with
    | (Returned a, log') => k a log'
    | (Thrown e, log') => (Thrown e, log')
    end.

Notation "x <~~ m ;; k" := (attemptThen m (fun x => k))
  (at level 100, m at next level, right associativity).

(** [await file.arrayBuffer()] *)
Definition arrayBufferWith (read : Reader) (file : File) : Attempt Buffer :=
  fun log => (read file, log ++ [file]).

Definition validateFileWith (read : Reader) (file : File)
    : Attempt FileValidationResult :=
  if negb (validateFileSize (File.size file)) then
    attempt {| valid := false;
               error := Some (sizeMessage (File.name file));
               mimeType := None |}
  else
    arrayBuffer <~~ arrayBufferWith read file ;;
    let buffer := Buffer_from arrayBuffer in
    let detectedMimeType := detectMimeType buffer in
    match detectedMimeType with
    | None =>
        attempt {| valid := false;
                   error := Some (imageMessage (File.name file));
                   mimeType := None |}
    | Some detected =>
        attempt {| valid := true; error := None; mimeType := Some detected |}
    end.

Fixpoint validateEachWith (read : Reader) (files : list File)
    (validated : list ValidatedFile) : Attempt BatchValidationResult :=
  match files with
  | [] =>
      attempt {| result := {| valid := true; error := None;
                              mimeType := None |};
                 validatedFiles := Some validated |}
  | file :: rest =>
      r <~~ validateFileWith read file ;;
      if negb (valid r) then
        attempt {| result := r; validatedFiles := None |}
      else
        validateEachWith read rest (validated ++ [(file, mimeType r)])
  end.

Definition validateFilesWith (read : Reader) (files : list File)
    : Attempt BatchValidationResult :=
  if (length files =? 0)%nat then
    attempt {| result := {| valid := true; error := None; mimeType := None |};
               validatedFiles := Some [] |}
  else
    let totalSize := sumOfSizes files in
    if negb (validateTotalSize totalSize) then
      attempt {| result := {| valid := false;
                              error := Some totalMessage;
                              mimeType := None |};
                 validatedFiles := None |}
    else
      validateEachWith read files [].

(** The reader of the files whose content is at hand: every read resolves
    to the content. *)
Definition reads_content : Reader := fun file => Returned (File.content file).

(** A reader whose every read rejects. *)
Definition unreadable : Reader :=
  fun _ => Thrown (Error "The requested file could not be read").

(** What the code has found when it gives a reason, for a call on [files]:
    the declared size of a file is not positive or is over the cap of a
    file; the sum of the declared sizes is over the cap of a batch; the
    content read from a file whose size is in range matches no signature. *)
Definition reasonCause (read : Reader) (files : list File)
    (reason : RejectionReason) : Prop :=
  match reason with
  | SizeExceeded file =>
      file ∈ files
      /\ (File.size file <= 0 \/ MAX_FILE_SIZE < File.size file)
  | TotalSizeExceeded => MAX_TOTAL_SIZE < sumOfSizes files
  | UnrecognizedContent file =>
      file ∈ files /\ 0 < File.size file <= MAX_FILE_SIZE
      /\ exists octets,
           read file = Returned octets /\ detectMimeType octets = None
  end.

(** The reasons as the specification words them (section 7):
    [SizeExceeded] is a single file over the cap of a file. *)
Definition reasonAsWorded (read : Reader) (files : list File)
    (reason : RejectionReason) : Prop :=
  match reason with
  | SizeExceeded file => file ∈ files /\ MAX_FILE_SIZE < File.size file
  | TotalSizeExceeded => MAX_TOTAL_SIZE < sumOfSizes files
  | UnrecognizedContent file =>
      file ∈ files
      /\ exists octets,
           read file = Returned octets /\ detectMimeType octets = None
  end.

(** An upload whose octets at offsets 8 to 11 are those of [WEBP] with
    their top bits set. *)
Definition forged_webp : File :=
  File.make "forged.webp" "image/webp" 12 marker_top_bits.

Arguments byteValue : simpl never.
Arguments asciiChar : simpl never.

Section Detection.

Implicit Types (buffer : Buffer) (sig : list Z) (k : AllowedMimeType).

Lemma AllowedMimeType_eqb_eq k k' :
  AllowedMimeType_eqb k k' = true <-> k = k'.
Proof. destruct k, k'; simpl; split; congruence. Qed.

Lemma startsWith_length sig buffer :
  startsWith sig buffer = true -> (length sig <= length buffer)%nat.
Proof.
  revert buffer; induction sig as [|s sig IH]; intros [|b buffer]; simpl;
    try lia; try discriminate.
  intros [_ H]%andb_true_iff. apply IH in H. lia.
Qed.

Lemma startsWith_prefix sig buffer :
  startsWith sig buffer = true <-> sig `prefix_of` (byteValue <$> buffer).
Proof.
  revert buffer; induction sig as [|s sig IH]; intros [|b buffer]; simpl.
  - split; [intros _; apply prefix_nil | done].
  - split; [intros _; apply prefix_nil | done].
  - split; [done | intros H%prefix_nil_inv; discriminate].
  - rewrite andb_true_iff, Z.eqb_eq, IH. split.
    + intros [-> H]. by apply prefix_cons.
    + intros H. split.
      * symmetry. exact (prefix_cons_inv_1 _ _ _ _ H).
      * exact (prefix_cons_inv_2 _ _ _ _ H).
Qed.

(** The callback of [every] reads the buffer at the index of the
    signature octet, so [every] compares the signature with the buffer
    from that index on. *)
Lemma every_from_startsWith buffer sig index :
  every_from (fun byte i => indexEquals buffer i byte) index sig
  = startsWith sig (drop index buffer).
Proof.
  revert index; induction sig as [|s sig IH]; intros index; simpl.
  - by destruct (drop index buffer).
  - unfold indexEquals at 1. destruct (buffer !! index) as [b|] eqn:E.
    + rewrite (drop_S _ _ _ E), IH. done.
    + apply lookup_ge_None in E. by rewrite drop_ge.
Qed.

Lemma every_startsWith buffer sig :
  every (fun byte i => indexEquals buffer i byte) sig
  = startsWith sig buffer.
Proof. unfold every. by rewrite every_from_startsWith, drop_0. Qed.

(** The inner loop returns its kind as soon as one signature passes. *)
Lemma scanSignatures_existsb k buffer sigs :
  scanSignatures k buffer sigs
  = if existsb (accepts k buffer) sigs then Some k else None.
Proof.
  induction sigs as [|sig sigs IH]; cbn [scanSignatures existsb]; [done|].
  rewrite every_startsWith, IH.
  generalize (existsb (accepts k buffer) sigs); intros others.
  unfold accepts, markerDecodesToWEBP.
  destruct (startsWith sig buffer) eqn:Hs; cbn [andb orb].
  - apply startsWith_length, Nat.leb_le in Hs. rewrite Hs.
    destruct (AllowedMimeType_eqb k image_webp); [|done].
    destruct (12 <=? length buffer)%nat; cbn [andb orb]; [|done].
    by destruct (String.eqb _ _).
  - by destruct (length sig <=? length buffer)%nat.
Qed.

(** Cases of a membership in a list that is written out. *)
Ltac in_cases H :=
  repeat (apply elem_of_cons in H as [H|H]); [..|by apply elem_of_nil in H];
  simplify_eq.

Lemma scanEntries_Some buffer entries k :
  scanEntries buffer entries = Some k ->
  exists sigs sig,
    (k, sigs) ∈ entries /\ sig ∈ sigs /\ accepts k buffer sig = true.
Proof.
  induction entries as [|[k' sigs'] entries IH]; cbn [scanEntries];
    [discriminate|].
  rewrite scanSignatures_existsb.
  destruct (existsb (accepts k' buffer) sigs') eqn:E.
  - intros [= <-]. apply existsb_exists in E as (sig & Hin & Hacc).
    exists sigs', sig. split_and!; [left | by apply list_elem_of_In | done].
  - intros (sigs & sig & Hin & H)%IH. exists sigs, sig. split; [by right|done].
Qed.

Lemma scanEntries_None buffer entries :
  scanEntries buffer entries = None <->
  forall k sigs sig,
    (k, sigs) ∈ entries -> sig ∈ sigs -> accepts k buffer sig = false.
Proof.
  induction entries as [|[k' sigs'] entries IH]; cbn [scanEntries].
  - split; [|done]. intros _ k sigs sig H. by apply elem_of_nil in H.
  - rewrite scanSignatures_existsb.
    destruct (existsb (accepts k' buffer) sigs') eqn:E.
    + split; [done|]. intros H.
      apply existsb_exists in E as (sig & Hin & Hacc).
      rewrite (H k' sigs' sig) in Hacc;
        [done | left | by apply list_elem_of_In].
    + rewrite IH. split; intros H k sigs sig Hk Hsig.
      * apply elem_of_cons in Hk as [[= -> ->]|Hk]; [|by eapply H].
        destruct (accepts k' buffer sig) eqn:Hacc; [|done].
        assert (existsb (accepts k' buffer) sigs' = true) as E'; [|congruence].
        apply existsb_exists. exists sig. split; [by apply list_elem_of_In|done].
      * eapply H; [by right | done].
Qed.

(** Every signature of the table starts with the octet of its kind, and
    the four octets differ: a buffer matches signatures of one kind at
    most. *)
Lemma startsWith_leadingOctet k sigs sig buffer :
  (k, sigs) ∈ MAGIC_BYTES -> sig ∈ sigs -> startsWith sig buffer = true ->
  exists b rest, buffer = b :: rest /\ byteValue b = leadingOctet k.
Proof.
  intros Hk Hsig Hs. destruct buffer as [|b rest].
  - unfold MAGIC_BYTES in Hk. in_cases Hk; in_cases Hsig; discriminate.
  - exists b, rest. split; [done|].
    unfold MAGIC_BYTES in Hk.
    in_cases Hk; in_cases Hsig; cbn [startsWith] in Hs;
      apply andb_true_iff in Hs as [Hb%Z.eqb_eq _]; exact Hb.
Qed.

Lemma leadingOctet_inj k k' : leadingOctet k = leadingOctet k' -> k = k'.
Proof. destruct k, k'; simpl; intros H; first [done | discriminate H]. Qed.

Lemma accepts_startsWith k buffer sig :
  accepts k buffer sig = true -> startsWith sig buffer = true.
Proof. unfold accepts. by intros [H _]%andb_true_iff. Qed.

(** [detectMimeType] returns [k] exactly when a signature of the entry of
    [k] passes the test of the inner loop. *)
Lemma detectMimeType_Some buffer k :
  detectMimeType buffer = Some k <->
  exists sigs sig,
    (k, sigs) ∈ MAGIC_BYTES /\ sig ∈ sigs /\ accepts k buffer sig = true.
Proof.
  split; [apply scanEntries_Some|].
  intros (sigs & sig & Hk & Hsig & Hacc).
  destruct (detectMimeType buffer) as [k'|] eqn:E.
  - apply scanEntries_Some in E as (sigs' & sig' & Hk' & Hsig' & Hacc').
    apply accepts_startsWith in Hacc, Hacc'.
    destruct (startsWith_leadingOctet _ _ _ _ Hk Hsig Hacc)
      as (b & rest & -> & Hb).
    destruct (startsWith_leadingOctet _ _ _ _ Hk' Hsig' Hacc')
      as (b' & rest' & [= <- <-] & Hb').
    f_equal. apply leadingOctet_inj. congruence.
  - unfold detectMimeType in E.
    rewrite scanEntries_None in E. by rewrite (E k sigs sig) in Hacc.
Qed.

Lemma detectMimeType_None buffer :
  detectMimeType buffer = None <->
  forall k sigs sig,
    (k, sigs) ∈ MAGIC_BYTES -> sig ∈ sigs -> accepts k buffer sig = false.
Proof. apply scanEntries_None. Qed.

(** *** The marker *)

Lemma low7_N b : low7 b = Z.of_N (N.land (Byte.to_N b) 0x7f).
Proof. unfold low7, byteValue. by rewrite N2Z.inj_land. Qed.

Lemma land_0x7f_bound (n : N) : (N.land n 0x7f < 256)%N.
Proof.
  change 0x7f%N with (N.ones 7). rewrite N.land_ones.
  pose proof (N.mod_upper_bound n (2 ^ 7)) as H.
  change (2 ^ 7)%N with 128%N in *. lia.
Qed.

Lemma asciiChar_low7 b b' : asciiChar b = asciiChar b' <-> low7 b = low7 b'.
Proof.
  rewrite !low7_N. unfold asciiChar. split; intros H.
  - apply (f_equal Ascii.N_of_ascii) in H.
    rewrite !Ascii.N_ascii_embedding in H by apply land_0x7f_bound.
    by rewrite H.
  - apply N2Z.inj in H. by rewrite H.
Qed.

Lemma toString_ascii_low7 (bs bs' : Buffer) :
  toString_ascii bs = toString_ascii bs' <-> low7 <$> bs = low7 <$> bs'.
Proof.
  revert bs'; induction bs as [|b bs IH]; intros [|b' bs']; simpl;
    try done.
  split.
  - intros [= Hc Hs]. apply asciiChar_low7 in Hc. apply IH in Hs.
    f_equal; [exact Hc | exact Hs].
  - intros [= Hc Hs]. apply asciiChar_low7 in Hc.
    apply (proj2 (IH bs')) in Hs. f_equal; [exact Hc | exact Hs].
Qed.

(** The text decoded from offsets 8 to 11 is [WEBP] exactly when the
    octets there are those of the text up to their top bit. *)
Lemma markerDecodesToWEBP_low7 buffer :
  markerDecodesToWEBP buffer = true <->
  (12 <= length buffer)%nat /\ low7 <$> slice 8 12 buffer = WEBP_octets.
Proof.
  unfold markerDecodesToWEBP.
  rewrite andb_true_iff, Nat.leb_le, String.eqb_eq.
  change "WEBP"%string with (toString_ascii [x57; x45; x42; x50]).
  rewrite toString_ascii_low7. done.
Qed.

Lemma slice_8_12_length buffer :
  length (slice 8 12 buffer) = 4%nat -> (12 <= length buffer)%nat.
Proof. unfold slice. rewrite length_take, length_drop. lia. Qed.

Lemma markerIsWEBP_decodes buffer :
  markerIsWEBP buffer = true -> markerDecodesToWEBP buffer = true.
Proof.
  unfold markerIsWEBP. rewrite bool_decide_eq_true. intros H.
  apply markerDecodesToWEBP_low7. split.
  - apply slice_8_12_length.
    apply (f_equal length) in H. by rewrite length_fmap in H.
  - change low7 with ((fun z => Z.land z 0x7f) ∘ byteValue).
    by rewrite list_fmap_compose, H.
Qed.

Lemma low7_sevenBit b : byteValue b < 0x80 -> low7 b = byteValue b.
Proof.
  intros H. unfold low7. change 0x7f with (Z.ones 7).
  rewrite Z.land_ones by lia. apply Z.mod_small.
  unfold byteValue in *. change (2 ^ 7) with 128. lia.
Qed.

Lemma markerDecodes_sevenBit buffer :
  markerIsSevenBit buffer ->
  markerDecodesToWEBP buffer = true -> markerIsWEBP buffer = true.
Proof.
  unfold markerIsSevenBit, markerIsWEBP.
  rewrite markerDecodesToWEBP_low7, bool_decide_eq_true.
  intros H7 [_ <-]. apply Forall_fmap_ext_1.
  eapply Forall_impl; [exact H7|]. intros b Hb. by rewrite low7_sevenBit.
Qed.

(** *** The table of the code and the table of the specification *)

Lemma MAGIC_BYTES_declared k sigs :
  (k, sigs) ∈ MAGIC_BYTES <-> sigs = declaredSignatures k.
Proof.
  split.
  - intros H. unfold MAGIC_BYTES in H. by in_cases H.
  - intros ->. unfold MAGIC_BYTES. apply list_elem_of_In.
    destruct k; simpl; tauto.
Qed.

Lemma accepts_codeMatch k buffer :
  codeMatch k buffer = true <->
  exists sig, sig ∈ declaredSignatures k /\ accepts k buffer sig = true.
Proof.
  unfold codeMatch, accepts. rewrite andb_true_iff, existsb_exists.
  setoid_rewrite andb_true_iff. setoid_rewrite <- list_elem_of_In.
  assert ((if AllowedMimeType_eqb k image_webp
           then markerDecodesToWEBP buffer else true)
          = match k with
            | image_webp => markerDecodesToWEBP buffer
            | _ => true
            end) as -> by (by destruct k).
  split.
  - intros [(sig & Hin & Hs) Hm]. eauto.
  - intros (sig & Hin & Hs & Hm). eauto.
Qed.

(** [detectMimeType] decides [codeMatch]. *)
Lemma detectMimeType_codeMatch buffer k :
  detectMimeType buffer = Some k <-> codeMatch k buffer = true.
Proof.
  rewrite detectMimeType_Some, accepts_codeMatch.
  setoid_rewrite MAGIC_BYTES_declared. split.
  - intros (sigs & sig & -> & Hin & Hacc). eauto.
  - intros (sig & Hin & Hacc). eauto 6.
Qed.

Lemma detectMimeType_no_match buffer :
  detectMimeType buffer = None <-> forall k, codeMatch k buffer = false.
Proof.
  split.
  - intros H k. destruct (codeMatch k buffer) eqn:E; [|done].
    apply detectMimeType_codeMatch in E. congruence.
  - intros H. destruct (detectMimeType buffer) as [k|] eqn:E; [|done].
    apply detectMimeType_codeMatch in E. by rewrite H in E.
Qed.

(** Every buffer the specification matches with a kind is detected as
    that kind. *)
Lemma declaredMatch_codeMatch k buffer :
  declaredMatch k buffer = true -> codeMatch k buffer = true.
Proof.
  unfold declaredMatch, codeMatch. rewrite !andb_true_iff.
  intros [Hs Hm]. split; [done|].
  destruct k; try done. by apply markerIsWEBP_decodes.
Qed.

Lemma detectMimeType_declared buffer k :
  declaredMatch k buffer = true -> detectMimeType buffer = Some k.
Proof.
  intros H. by apply detectMimeType_codeMatch, declaredMatch_codeMatch.
Qed.

(** The converse holds for the three kinds without a marker, and for WEBP
    on the buffers whose octets at offsets 8 to 11 are below 0x80. *)
Lemma detectMimeType_declared_iff buffer k :
  k <> image_webp \/ markerIsSevenBit buffer ->
  detectMimeType buffer = Some k <-> declaredMatch k buffer = true.
Proof.
  intros Hk. split; [|apply detectMimeType_declared].
  rewrite detectMimeType_codeMatch. unfold declaredMatch, codeMatch.
  rewrite !andb_true_iff. intros [Hs Hm]. split; [done|].
  destruct k; try done.
  destruct Hk as [Hk|H7]; [done|]. by apply markerDecodes_sevenBit.
Qed.

End Detection.

(** ** The size checks *)

Section Sizes.

Lemma validateFileSize_iff (size : Z) :
  validateFileSize size = true <-> 0 < size <= MAX_FILE_SIZE.
Proof.
  unfold validateFileSize. rewrite andb_true_iff, Z.gtb_ltb, Z.ltb_lt, Z.leb_le.
  done.
Qed.

Lemma validateTotalSize_iff (total : Z) :
  validateTotalSize total = true <-> total <= MAX_TOTAL_SIZE.
Proof. unfold validateTotalSize. by rewrite Z.leb_le. Qed.

Lemma sumOfSizes_from (files : list File) (start : Z) :
  fold_left (fun sum file => sum + File.size file) files start
  = start + sumOfSizes files.
Proof.
  unfold sumOfSizes. revert start.
  induction files as [|f files IH]; intros start; cbn [fold_left]; [lia|].
  rewrite (IH (start + File.size f)), (IH (0 + File.size f)). lia.
Qed.

Lemma sumOfSizes_cons (f : File) (files : list File) :
  sumOfSizes (f :: files) = File.size f + sumOfSizes files.
Proof. unfold sumOfSizes at 1. cbn [fold_left]. apply sumOfSizes_from. Qed.

(** The sum reads the declared sizes and nothing else. *)
Lemma sumOfSizes_sizes (files files' : list File) :
  File.size <$> files = File.size <$> files' ->
  sumOfSizes files = sumOfSizes files'.
Proof.
  revert files'; induction files as [|f files IH]; intros [|f' files'];
    try done.
  intros [= Hf Hfs]. rewrite !sumOfSizes_cons, Hf. f_equal. by apply IH.
Qed.

End Sizes.

(** ** The validators *)

Section Validators.

Implicit Types (file : File) (files : list File) (log : list File).

(** [validateFile] written out: its value and the log it leaves. *)
Lemma validateFile_run file log :
  validateFile file log =
  if validateFileSize (File.size file) then
    match detectMimeType (File.content file) with
    | Some k => (acceptedAs k, log ++ [file])
    | None => (rejectedWith (imageMessage (File.name file)), log ++ [file])
    end
  else (rejectedWith (sizeMessage (File.name file)), log).
Proof.
  unfold validateFile, bind, arrayBuffer, ret, Buffer_from.
  destruct (validateFileSize _); simpl; [|done].
  by destruct (detectMimeType _).
Qed.

Lemma validateFile_log file log :
  validateFile file log = (outcome file, log ++ reads file).
Proof.
  unfold outcome, reads. rewrite !validateFile_run.
  destruct (validateFileSize _); simpl; [|by rewrite app_nil_r].
  by destruct (detectMimeType _).
Qed.

Lemma outcome_valid file :
  valid (outcome file) = true <->
  validateFileSize (File.size file) = true
  /\ is_Some (detectMimeType (File.content file)).
Proof.
  unfold outcome. rewrite validateFile_run.
  destruct (validateFileSize _); simpl.
  - destruct (detectMimeType _); simpl; split; try done.
    + by intros [_ [? ?]].
  - split; [done | by intros [? _]].
Qed.

Lemma outcome_valid_reads file :
  valid (outcome file) = true ->
  reads file = [file]
  /\ mimeType (outcome file) = detectMimeType (File.content file).
Proof.
  unfold outcome, reads. rewrite validateFile_run.
  destruct (validateFileSize _); simpl; [|done].
  by destruct (detectMimeType _).
Qed.

(** The loop over files that are all accepted visits and reads each of
    them, in order. *)
Lemma validateEach_all_valid files validated log :
  Forall (fun f => valid (outcome f) = true) files ->
  validateEach files validated log =
  (acceptedBatch
     (validated ++ ((fun f => (f, detectMimeType (File.content f))) <$> files)),
   log ++ files).
Proof.
  intros H; revert validated log.
  induction H as [|f files Hf _ IH]; intros validated log; simpl.
  - unfold ret. by rewrite !app_nil_r.
  - unfold bind at 1. rewrite validateFile_log, Hf. simpl.
    destruct (outcome_valid_reads f Hf) as [-> ->].
    rewrite IH, <- !app_assoc. done.
Qed.

(** The loop stops at the first file that is rejected. *)
Lemma validateEach_first_invalid pre file post validated log :
  Forall (fun f => valid (outcome f) = true) pre ->
  valid (outcome file) = false ->
  validateEach (pre ++ file :: post) validated log =
  (rejectedBatch (outcome file), log ++ pre ++ reads file).
Proof.
  intros H Hfile; revert validated log.
  induction H as [|f pre Hf _ IH]; intros validated log; simpl.
  - unfold bind at 1. by rewrite validateFile_log, Hfile.
  - unfold bind at 1. rewrite validateFile_log, Hf. simpl.
    destruct (outcome_valid_reads f Hf) as [-> _].
    rewrite IH, <- !app_assoc. done.
Qed.

(** A batch is accepted file by file, or has a first rejected file. *)
Lemma first_invalid files :
  Forall (fun f => valid (outcome f) = true) files
  \/ exists pre file post,
      files = pre ++ file :: post
      /\ Forall (fun f => valid (outcome f) = true) pre
      /\ valid (outcome file) = false.
Proof.
  induction files as [|f files IH]; [by left|].
  destruct (valid (outcome f)) eqn:Hf.
  - destruct IH as [IH|(pre & file & post & -> & Hpre & Hfile)].
    + left. by constructor.
    + right. exists (f :: pre), file, post. split_and!; [done| |done].
      by constructor.
  - right. exists [], f, files. split_and!; [done|constructor|done].
Qed.

Lemma validateFiles_run files log :
  validateFiles files log =
  match files with
  | [] => (acceptedBatch [], log)
  | _ :: _ =>
      if validateTotalSize (sumOfSizes files)
      then validateEach files [] log
      else (rejectedBatch (rejectedWith totalMessage), log)
  end.
Proof.
  unfold validateFiles. destruct files as [|f files]; simpl; [done|].
  by destruct (validateTotalSize _).
Qed.

End Validators.

(** ** Buffers that begin with [RIFF] *)

Section Riff.

Implicit Types (buffer : Buffer).

(** On a buffer that begins with [RIFF] the only candidate is WEBP: the
    result is WEBP when the decoded marker is [WEBP], and no match
    otherwise; the other entries are still tried and none applies. *)
Lemma detectMimeType_riff buffer :
  startsWith RIFF buffer = true ->
  detectMimeType buffer
  = if markerDecodesToWEBP buffer then Some image_webp else None.
Proof.
  intros Hriff. destruct (markerDecodesToWEBP buffer) eqn:Hm.
  - apply detectMimeType_codeMatch. unfold codeMatch.
    cbn [declaredSignatures existsb]. fold RIFF. by rewrite Hriff, Hm.
  - destruct (detectMimeType buffer) as [k|] eqn:E; [|done].
    pose proof E as (sigs & sig & Hk & Hsig & Hacc)%detectMimeType_Some.
    apply accepts_startsWith in Hacc.
    destruct (startsWith_leadingOctet _ _ _ _ Hk Hsig Hacc)
      as (b & rest & -> & Hb).
    cbn [startsWith RIFF] in Hriff.
    apply andb_true_iff in Hriff as [Hb'%Z.eqb_eq _].
    assert (k = image_webp) as ->.
    { apply leadingOctet_inj. simpl. congruence. }
    apply detectMimeType_codeMatch in E. unfold codeMatch in E.
    rewrite Hm, andb_false_r in E. done.
Qed.

Lemma detectMimeType_riff_short buffer :
  startsWith RIFF buffer = true -> (length buffer < 12)%nat ->
  detectMimeType buffer = None.
Proof.
  intros Hriff Hlen. rewrite detectMimeType_riff by done.
  unfold markerDecodesToWEBP.
  by rewrite (proj2 (Nat.leb_gt 12 (length buffer)) Hlen).
Qed.

Lemma detectMimeType_riff_other_marker buffer :
  startsWith RIFF buffer = true ->
  low7 <$> slice 8 12 buffer <> WEBP_octets ->
  detectMimeType buffer = None.
Proof.
  intros Hriff Hm. rewrite detectMimeType_riff by done.
  destruct (markerDecodesToWEBP buffer) eqn:E; [|done].
  by apply markerDecodesToWEBP_low7 in E as [_ E].
Qed.

Example detectMimeType_riff_only :
  detectMimeType [x52; x49; x46; x46] = None.
Proof. reflexivity. Qed.

Example detectMimeType_riff_wave : detectMimeType riff_wave = None.
Proof. reflexivity. Qed.

Example detectMimeType_riff_webp :
  detectMimeType riff_webp = Some image_webp.
Proof. reflexivity. Qed.

End Riff.

(** ** The properties of the specification *)

(** C5. [validateFileSize size] is true exactly when
    [0 < size <= 5 * 1024 * 1024]: it is false for 0, for every negative
    size and for [5 * 1024 * 1024 + 1], and true at [5 * 1024 * 1024]. *)
Theorem validateFileSize_spec (size : Z) :
  (validateFileSize size = true <-> 0 < size <= 5 * 1024 * 1024)
  /\ validateFileSize 0 = false
  /\ (size < 0 -> validateFileSize size = false)
  /\ validateFileSize (5 * 1024 * 1024 + 1) = false
  /\ validateFileSize (5 * 1024 * 1024) = true.
Proof.
  split_and!; try reflexivity.
  - apply validateFileSize_iff.
  - intros H. apply not_true_is_false. rewrite validateFileSize_iff. lia.
Qed.

Lemma validateFileSize_spec_witness : validateFileSize (-1) = false.
Proof.
  destruct (validateFileSize_spec (-1)) as (_ & _ & H & _).
  apply H. lia.
Defined.

(** C6. [validateTotalSize total] is true exactly when
    [total <= 20 * 1024 * 1024], with no lower bound: [20 * 1024 * 1024]
    passes, one more fails, and 0 and everything below pass. *)
Theorem validateTotalSize_spec (total : Z) :
  (validateTotalSize total = true <-> total <= 20 * 1024 * 1024)
  /\ validateTotalSize (20 * 1024 * 1024) = true
  /\ validateTotalSize (20 * 1024 * 1024 + 1) = false
  /\ (total <= 0 -> validateTotalSize total = true).
Proof.
  split_and!; try reflexivity.
  - apply validateTotalSize_iff.
  - intros H. apply validateTotalSize_iff. unfold MAX_TOTAL_SIZE. lia.
Qed.

Lemma validateTotalSize_spec_witness : validateTotalSize (-7) = true.
Proof.
  destruct (validateTotalSize_spec (-7)) as (_ & _ & _ & H).
  apply H. lia.
Defined.

(** C3. [validateFile] checks the declared size first and, when
    [validateFileSize] fails, rejects with the size message that names the
    file, without reading the content (the log is unchanged).  When the size
    check passes it reads the content once and runs the detection: no match
    rejects with the message that names the file and the list
    PNG, JPG, GIF, WebP; a match is accepted with the detected kind.  In
    particular a file of declared size 100 whose content is the PNG
    signature followed by any payload is accepted as PNG. *)
Theorem validateFile_spec (file : File) (log : list File) :
  (validateFileSize (File.size file) = false ->
     validateFile file log
     = (rejectedWith ("File " +:+ quote +:+ File.name file +:+ quote
                        +:+ " exceeds maximum size of 5MB"), log))
  /\ (validateFileSize (File.size file) = true ->
       detectMimeType (File.content file) = None ->
       validateFile file log
       = (rejectedWith
            ("File " +:+ quote +:+ File.name file +:+ quote
               +:+ " is not a valid image (PNG, JPG, GIF, or WebP)"),
          log ++ [file]))
  /\ (forall k,
       validateFileSize (File.size file) = true ->
       detectMimeType (File.content file) = Some k ->
       validateFile file log = (acceptedAs k, log ++ [file]))
  /\ (forall payload,
       File.size file = 100 ->
       File.content file = png_header ++ payload ->
       validateFile file log = (acceptedAs image_png, log ++ [file])).
Proof.
  rewrite validateFile_run. split_and!.
  - by intros ->.
  - by intros -> ->.
  - by intros k -> ->.
  - intros payload -> ->.
    by rewrite (detectMimeType_declared (png_header ++ payload) image_png).
Qed.

Lemma validateFile_spec_witness :
  validateFile empty_upload [] = (rejectedWith (sizeMessage "empty.png"), [])
  /\ validateFile sound [] = (rejectedWith (imageMessage "sound.webp"), [sound])
  /\ validateFile animation [] = (acceptedAs image_gif, [animation])
  /\ validateFile photo [] = (acceptedAs image_png, [photo]).
Proof.
  split_and!.
  - apply (validateFile_spec empty_upload []). reflexivity.
  - apply (validateFile_spec sound []); reflexivity.
  - apply (validateFile_spec animation []); reflexivity.
  - apply (validateFile_spec photo []) with (payload := [x00; x00; x00; x0d]);
      reflexivity.
Defined.

(** C2. [validateFiles] on the empty list accepts with an empty validated
    list.  On a non-empty list it first sums the declared sizes; when the sum
    is over [MAX_TOTAL_SIZE] it rejects the batch with the total-size
    message and reads no content (the log is unchanged), so every batch
    with the same declared sizes gets the same answer.  Otherwise it
    validates the files in order with [validateFile]: at the first rejected
    file it returns the rejection of that file alone, having read the files
    before it and no file after it; and when no file is rejected it accepts
    with one entry per file. *)
Theorem validateFiles_spec (files : list File) (log : list File) :
  (files = [] -> validateFiles files log = (acceptedBatch [], log))
  /\ (files <> [] -> MAX_TOTAL_SIZE < sumOfSizes files ->
       validateFiles files log = (rejectedBatch (rejectedWith totalMessage), log)
       /\ forall files',
            File.size <$> files' = File.size <$> files ->
            validateFiles files' log = validateFiles files log)
  /\ (files <> [] -> sumOfSizes files <= MAX_TOTAL_SIZE ->
       forall pre file post,
         files = pre ++ file :: post ->
         Forall (fun f => valid (fst (validateFile f [])) = true) pre ->
         valid (fst (validateFile file [])) = false ->
         validateFiles files log
         = (rejectedBatch (fst (validateFile file [])),
            log ++ pre ++ snd (validateFile file []))
         /\ snd (validateFile file [])
            = (if validateFileSize (File.size file) then [file] else []))
  /\ (files <> [] -> sumOfSizes files <= MAX_TOTAL_SIZE ->
       Forall (fun f => valid (fst (validateFile f [])) = true) files ->
       validateFiles files log
       = (acceptedBatch
            ((fun f => (f, detectMimeType (File.content f))) <$> files),
          log ++ files)).
Proof.
  split_and!.
  - by intros ->.
  - intros Hne Hsum.
    assert (forall files',
              File.size <$> files' = File.size <$> files ->
              validateFiles files' log
              = (rejectedBatch (rejectedWith totalMessage), log)) as H.
    { intros files' Hsizes. rewrite validateFiles_run.
      destruct files' as [|f' files']; [by destruct files|].
      apply sumOfSizes_sizes in Hsizes.
      destruct (validateTotalSize _) eqn:E; [|done].
      apply validateTotalSize_iff in E. lia. }
    split; [by apply H|]. intros files' Hsizes.
    by rewrite (H files' Hsizes), (H files eq_refl).
  - intros Hne Hsum%validateTotalSize_iff pre file post -> Hpre Hfile.
    rewrite validateFiles_run, Hsum. split.
    + destruct pre; by apply validateEach_first_invalid.
    + rewrite validateFile_run. destruct (validateFileSize _); [|done].
      by destruct (detectMimeType _).
  - intros Hne Hsum%validateTotalSize_iff Hall.
    rewrite validateFiles_run, Hsum. destruct files as [|f files]; [done|].
    by rewrite validateEach_all_valid.
Qed.

Lemma validateFiles_spec_witness :
  validateFiles [] [] = (acceptedBatch [], [])
  /\ validateFiles [ten_MiB; eleven_MiB] []
     = (rejectedBatch (rejectedWith totalMessage), [])
  /\ validateFiles [photo; sound; animation] []
     = (rejectedBatch (rejectedWith (imageMessage "sound.webp")),
        [photo; sound])
  /\ validateFiles [photo; animation] []
     = (acceptedBatch [(photo, Some image_png); (animation, Some image_gif)],
        [photo; animation]).
Proof.
  split_and!.
  - destruct (validateFiles_spec [] []) as (H & _). by apply H.
  - destruct (validateFiles_spec [ten_MiB; eleven_MiB] []) as (_ & H & _).
    destruct H as [Hrun _]; [discriminate | reflexivity | exact Hrun].
  - destruct (validateFiles_spec [photo; sound; animation] [])
      as (_ & _ & H & _).
    destruct (H ltac:(discriminate) ltac:(discriminate)
                [photo] sound [animation] eq_refl) as [Hrun _];
      [repeat constructor | reflexivity | exact Hrun].
  - destruct (validateFiles_spec [photo; animation] []) as (_ & _ & _ & H).
    apply H; [discriminate | discriminate | repeat constructor].
Defined.

(** C9. When [validateFiles] accepts a non-empty batch, [validatedFiles]
    has one entry per input file, in the order of the input, and each entry
    pairs the file with the kind [detectMimeType] returns for its content;
    every file of the batch passed the size check and matched a signature. *)
Theorem validateFiles_accepted (files : list File) (log : list File)
    (Hfiles : files <> [])
    (Hvalid : valid (result (fst (validateFiles files log))) = true) :
  validatedFiles (fst (validateFiles files log))
  = Some ((fun f => (f, detectMimeType (File.content f))) <$> files)
  /\ Forall (fun f => validateFileSize (File.size f) = true
                      /\ is_Some (detectMimeType (File.content f))) files.
Proof.
  rewrite validateFiles_run in *.
  destruct files as [|f0 files0] eqn:Efiles; [done|]. rewrite <- Efiles in *.
  clear Efiles f0 files0.
  destruct (validateTotalSize _); [|done].
  destruct (first_invalid files)
    as [Hall|(pre & file & post & -> & Hpre & Hfile)].
  - rewrite validateEach_all_valid in * by done. split; [done|].
    eapply Forall_impl; [exact Hall|]. intros f Hf. by apply outcome_valid.
  - rewrite validateEach_first_invalid in Hvalid by done.
    simpl in Hvalid. congruence.
Qed.

Lemma validateFiles_accepted_witness :
  validatedFiles (fst (validateFiles [photo; animation] []))
  = Some [(photo, Some image_png); (animation, Some image_gif)].
Proof.
  apply (validateFiles_accepted [photo; animation] []);
    [discriminate | reflexivity].
Defined.

(** C10. Every result of [validateFile] and of [validateFiles] is well
    formed.  A valid result has no error message, and carries the detected
    kind for [validateFile] and the validated list for [validateFiles]; an
    invalid result has an error message and carries neither a kind nor a
    validated list, so a batch rejected at one of its files exposes no
    partial list. *)
Theorem results_well_formed (file : File) (files : list File)
    (log : list File) :
  (if valid (fst (validateFile file log))
   then error (fst (validateFile file log)) = None
        /\ is_Some (mimeType (fst (validateFile file log)))
   else is_Some (error (fst (validateFile file log)))
        /\ mimeType (fst (validateFile file log)) = None)
  /\ (if valid (result (fst (validateFiles files log)))
      then error (result (fst (validateFiles files log))) = None
           /\ is_Some (validatedFiles (fst (validateFiles files log)))
      else is_Some (error (result (fst (validateFiles files log))))
           /\ mimeType (result (fst (validateFiles files log))) = None
           /\ validatedFiles (fst (validateFiles files log)) = None).
Proof.
  assert (forall f,
            if valid (outcome f)
            then error (outcome f) = None /\ is_Some (mimeType (outcome f))
            else is_Some (error (outcome f)) /\ mimeType (outcome f) = None)
    as Hone.
  { intros f. unfold outcome. rewrite validateFile_run.
    destruct (validateFileSize _); [destruct (detectMimeType _)|]; simpl; eauto. }
  split.
  - rewrite validateFile_log. apply Hone.
  - rewrite validateFiles_run. destruct files as [|f0 files0] eqn:E.
    { simpl. eauto. }
    rewrite <- E. clear E f0 files0.
    destruct (validateTotalSize _); [|simpl; eauto].
    destruct (first_invalid files)
      as [Hall|(pre & f & post & -> & Hpre & Hf)].
    + rewrite validateEach_all_valid by done. simpl. eauto.
    + rewrite validateEach_first_invalid by done. simpl.
      specialize (Hone f). rewrite Hf in *. tauto.
Qed.

(** ** What an accepted file has matched *)

Section Accepted.

Implicit Types (file f g : File) (log : list File) (k : AllowedMimeType).

(** The decision reads the declared size and the content, and nothing
    else. *)
Lemma validateFile_same_content f g log log' :
  File.size f = File.size g -> File.content f = File.content g ->
  valid (fst (validateFile f log)) = valid (fst (validateFile g log'))
  /\ mimeType (fst (validateFile f log))
     = mimeType (fst (validateFile g log')).
Proof.
  rewrite !validateFile_run. intros -> ->.
  destruct (validateFileSize _); [|done]. by destruct (detectMimeType _).
Qed.

(** A file accepted as a kind has passed the match of the code for that
    kind. *)
Lemma validateFile_accepted_codeMatch file log k :
  valid (fst (validateFile file log)) = true ->
  mimeType (fst (validateFile file log)) = Some k ->
  codeMatch k (File.content file) = true.
Proof.
  rewrite validateFile_run. destruct (validateFileSize _); [|done].
  destruct (detectMimeType (File.content file)) as [k'|] eqn:E; [|done].
  simpl. intros _ [= <-]. by apply detectMimeType_codeMatch.
Qed.

End Accepted.

(** C7. The specification states that the decision never uses the declared
    name or MIME type, and that a file accepted as a kind has matched a
    signature of that kind at the declared offsets.  The first part holds
    ([validateFile_same_content]).  The second fails on [forged_webp]: its
    octets at offsets 8 to 11 are not those of [WEBP], it matches no kind of
    the specification, and [validateFile] accepts it as WEBP, because the
    marker is compared after [toString("ascii")] has cleared the top bit of
    every octet. *)
Theorem validateFile_accepts_forged_marker :
  byteValue <$> slice 8 12 (File.content forged_webp) <> WEBP_octets
  /\ (forall k, declaredMatch k (File.content forged_webp) = false)
  /\ validateFile forged_webp [] = (acceptedAs image_webp, [forged_webp]).
Proof. split_and!; [discriminate | intros []; reflexivity | reflexivity]. Qed.

(** ** Failures, when a read can fail *)

Section Failures.

Variable read : Reader.

Implicit Types (file : File) (files : list File) (log : list File).

(** [validateFileWith] written out. *)
Lemma validateFileWith_run file log :
  validateFileWith read file log =
  if validateFileSize (File.size file) then
    match read file with
    | Returned octets =>
        (Returned match detectMimeType octets with
                  | Some k => acceptedAs k
                  | None => rejectedWith (imageMessage (File.name file))
                  end,
         log ++ [file])
    | Thrown e => (Thrown e, log ++ [file])
    end
  else (Returned (rejectedWith (sizeMessage (File.name file))), log).
Proof.
  unfold validateFileWith, attemptThen, arrayBufferWith, attempt, Buffer_from.
  destruct (validateFileSize _); simpl; [|done].
  destruct (read file) as [octets|e]; [|done].
  by destruct (detectMimeType octets).
Qed.

Lemma validateFileSize_false (size : Z) :
  validateFileSize size = false <-> size <= 0 \/ MAX_FILE_SIZE < size.
Proof. rewrite <- not_true_iff_false, validateFileSize_iff. lia. Qed.

(** How a call of [validateFileWith] can end. *)
Lemma validateFileWith_ends file log :
  match validateFileWith read file log with
  | (Thrown e, _) =>
      validateFileSize (File.size file) = true /\ read file = Thrown e
  | (Returned r, _) =>
      valid r = true
      \/ exists reason,
           (reason = SizeExceeded file \/ reason = UnrecognizedContent file)
           /\ reasonCause read [file] reason
           /\ r = rejectedWith (reasonMessage reason)
  end.
Proof.
  rewrite validateFileWith_run.
  destruct (validateFileSize (File.size file)) eqn:Hsize.
  - destruct (read file) as [octets|e] eqn:Hread; [|done].
    destruct (detectMimeType octets) as [k|] eqn:Hkind; [by left|].
    right. exists (UnrecognizedContent file). split; [by right|].
    split; [|done]. simpl. split; [apply list_elem_of_singleton; done|].
    split; [by apply validateFileSize_iff|]. by exists octets.
  - right. exists (SizeExceeded file). split; [by left|].
    split; [|done]. simpl. split; [apply list_elem_of_singleton; done|].
    by apply validateFileSize_false.
Qed.

Lemma reasonCause_member file files reason :
  file ∈ files ->
  (reason = SizeExceeded file \/ reason = UnrecognizedContent file) ->
  reasonCause read [file] reason -> reasonCause read files reason.
Proof. intros Hin [-> | ->]; simpl; intros [_ H]; by split. Qed.

(** How the loop over the files can end. *)
Lemma validateEachWith_ends files validated log :
  match validateEachWith read files validated log with
  | (Thrown e, _) =>
      exists f, f ∈ files /\ validateFileSize (File.size f) = true
                /\ read f = Thrown e
  | (Returned b, _) =>
      valid (result b) = true
      \/ exists f reason,
           f ∈ files
           /\ (reason = SizeExceeded f \/ reason = UnrecognizedContent f)
           /\ reasonCause read [f] reason
           /\ b = rejectedBatch (rejectedWith (reasonMessage reason))
  end.
Proof.
  revert validated log; induction files as [|file files IH];
    intros validated log; cbn [validateEachWith]; [by left|].
  unfold attemptThen at 1. pose proof (validateFileWith_ends file log) as H.
  destruct (validateFileWith read file log) as [[r|e] log'].
  - destruct (valid r) eqn:Hvalid; cbn [negb].
    + specialize (IH (validated ++ [(file, mimeType r)]) log').
      destruct (validateEachWith read files _ log') as [[b|e] log''].
      * destruct IH as [IH|(f & reason & Hin & IH)]; [by left|].
        right. exists f, reason. split; [by right|done].
      * destruct IH as (f & Hin & IH). exists f. split; [by right|done].
    + right. destruct H as [H|(reason & Hr & Hcause & ->)]; [congruence|].
      exists file, reason. split; [left|done].
  - destruct H as [Hsize Hread]. exists file. split; [left|done].
Qed.

Lemma validateFilesWith_run files log :
  validateFilesWith read files log =
  match files with
  | [] => (Returned (acceptedBatch []), log)
  | _ :: _ =>
      if validateTotalSize (sumOfSizes files)
      then validateEachWith read files [] log
      else (Returned (rejectedBatch (rejectedWith totalMessage)), log)
  end.
Proof.
  unfold validateFilesWith. destruct files as [|f files]; simpl; [done|].
  by destruct (validateTotalSize _).
Qed.

(** How a call of [validateFilesWith] can end. *)
Lemma validateFilesWith_ends files log :
  match validateFilesWith read files log with
  | (Thrown e, _) =>
      exists f, f ∈ files /\ validateFileSize (File.size f) = true
                /\ read f = Thrown e
  | (Returned b, _) =>
      valid (result b) = true
      \/ exists reason,
           reasonCause read files reason
           /\ b = rejectedBatch (rejectedWith (reasonMessage reason))
  end.
Proof.
  rewrite validateFilesWith_run. destruct files as [|f0 files0] eqn:E;
    [by left|].
  rewrite <- E. clear E f0 files0.
  destruct (validateTotalSize _) eqn:Htotal.
  - pose proof (validateEachWith_ends files [] log) as H.
    destruct (validateEachWith read files [] log) as [[b|e] log']; [|done].
    destruct H as [H|(f & reason & Hin & Hr & Hcause & ->)]; [by left|].
    right. exists reason. split; [|done]. by eapply reasonCause_member.
  - right. exists TotalSizeExceeded. split; [|done]. simpl.
    apply not_true_iff_false in Htotal. rewrite validateTotalSize_iff in Htotal.
    lia.
Qed.

End Failures.

(** The validators of the first part are these, for the reader of the
    files whose content is at hand. *)
Lemma validateFilesWith_reads_content (files : list File) (log : list File) :
  validateFilesWith reads_content files log
  = (Returned (fst (validateFiles files log)), snd (validateFiles files log)).
Proof.
  assert (forall file log',
            validateFileWith reads_content file log'
            = (Returned (fst (validateFile file log')),
               snd (validateFile file log'))) as Hone.
  { intros file log'. rewrite validateFileWith_run, validateFile_run.
    unfold reads_content. destruct (validateFileSize _); [|done].
    by destruct (detectMimeType _). }
  assert (forall fs validated log',
            validateEachWith reads_content fs validated log'
            = (Returned (fst (validateEach fs validated log')),
               snd (validateEach fs validated log'))) as Heach.
  { induction fs as [|f fs IH]; intros validated log'; [done|].
    cbn [validateEachWith validateEach]. unfold attemptThen, bind.
    rewrite Hone. destruct (validateFile f log') as [r log''].
    cbn [fst snd]. destruct (valid r); cbn [negb]; [apply IH | done]. }
  rewrite validateFilesWith_run, validateFiles_run.
  destruct files as [|f files]; [done|].
  destruct (validateTotalSize _); [apply Heach | done].
Qed.

(** C8. Every failure the validators report is a returned value that
    carries one of three reasons: [SizeExceeded] when the declared size of a
    file fails the size check, because it is not positive or because it is
    over the cap of a file; [TotalSizeExceeded] when the sum of the declared
    sizes is over the cap of a batch; [UnrecognizedContent] when the content
    matches no signature.  The validators raise nothing of their own: a call
    ends in an exception only when [file.arrayBuffer()] of a file it reads
    rejects, and then with that rejection; when the reads resolve, every
    input gets a returned value, and the buffer of length zero is a no
    match. *)
Theorem failures_are_returned_or_read (read : Reader) (file : File)
    (files : list File) (log : list File) :
  detectMimeType [] = None
  /\ (forall e log',
        validateFileWith read file log = (Thrown e, log') ->
        validateFileSize (File.size file) = true /\ read file = Thrown e)
  /\ (forall r log',
        validateFileWith read file log = (Returned r, log') ->
        valid r = false ->
        exists reason,
          (reason = SizeExceeded file \/ reason = UnrecognizedContent file)
          /\ reasonCause read [file] reason
          /\ r = rejectedWith (reasonMessage reason))
  /\ (forall e log',
        validateFilesWith read files log = (Thrown e, log') ->
        exists f, f ∈ files /\ validateFileSize (File.size f) = true
                  /\ read f = Thrown e)
  /\ (forall b log',
        validateFilesWith read files log = (Returned b, log') ->
        valid (result b) = false ->
        exists reason,
          reasonCause read files reason
          /\ b = rejectedBatch (rejectedWith (reasonMessage reason)))
  /\ ((forall f, f ∈ files -> exists octets, read f = Returned octets) ->
      exists b log', validateFilesWith read files log = (Returned b, log')).
Proof.
  pose proof (validateFileWith_ends read file log) as Hfile.
  pose proof (validateFilesWith_ends read files log) as Hfiles.
  split_and!.
  - reflexivity.
  - intros e log' Hrun. by rewrite Hrun in Hfile.
  - intros r log' Hrun Hvalid. rewrite Hrun in Hfile.
    destruct Hfile as [Hfile|Hfile]; [congruence | done].
  - intros e log' Hrun. by rewrite Hrun in Hfiles.
  - intros b log' Hrun Hvalid. rewrite Hrun in Hfiles.
    destruct Hfiles as [Hfiles|Hfiles]; [congruence | done].
  - intros Hreads.
    destruct (validateFilesWith read files log) as [[b|e] log']; [by eauto|].
    destruct Hfiles as (f & Hin & _ & Hread).
    destruct (Hreads f Hin) as [octets Hoctets]. congruence.
Qed.

Lemma failures_are_returned_or_read_witness :
  (exists reason,
     reasonCause reads_content [photo; sound] reason
     /\ fst (validateFilesWith reads_content [photo; sound] [])
        = Returned (rejectedBatch (rejectedWith (reasonMessage reason))))
  /\ (exists b log',
       validateFilesWith reads_content [photo; animation] []
       = (Returned b, log'))
  /\ unreadable photo
     = Thrown (Error "The requested file could not be read").
Proof.
  split_and!.
  - destruct (failures_are_returned_or_read reads_content photo
                [photo; sound] []) as (_ & _ & _ & _ & H & _).
    destruct (H _ _ eq_refl eq_refl) as (reason & Hcause & Hb).
    exists reason. split; [exact Hcause|]. by rewrite <- Hb.
  - destruct (failures_are_returned_or_read reads_content photo
                [photo; animation] []) as (_ & _ & _ & _ & _ & H).
    apply H. intros f _. by eexists.
  - destruct (failures_are_returned_or_read unreadable photo [photo] [])
      as (_ & H & _).
    by destruct (H _ _ eq_refl) as [_ Hread].
Defined.

(** C8, as the specification words it, fails twice.  The empty upload is
    rejected with the message of [SizeExceeded] and is not over the cap of
    a file, so no reason as worded accounts for its rejection; and a file
    whose read rejects makes [validateFile] throw. *)
Lemma failures_as_worded_counterexample :
  (fst (validateFileWith reads_content empty_upload [])
   = Returned (rejectedWith (reasonMessage (SizeExceeded empty_upload)))
   /\ ~ MAX_FILE_SIZE < File.size empty_upload
   /\ ~ exists reason,
         reasonAsWorded reads_content [empty_upload] reason
         /\ fst (validateFileWith reads_content empty_upload [])
            = Returned (rejectedWith (reasonMessage reason)))
  /\ fst (validateFileWith unreadable photo [])
     = Thrown (Error "The requested file could not be read").
Proof.
  split; [|reflexivity]. split_and!.
  - reflexivity.
  - unfold MAX_FILE_SIZE. simpl. lia.
  - intros (reason & Hworded & Hresult).
    destruct reason as [f| |f]; simpl in Hworded.
    + destruct Hworded as [Hin Hsize].
      apply list_elem_of_singleton in Hin. subst f.
      unfold MAX_FILE_SIZE in Hsize. simpl in Hsize. lia.
    + vm_compute in Hresult. discriminate Hresult.
    + destruct Hworded as [Hin _].
      apply list_elem_of_singleton in Hin. subst f.
      vm_compute in Hresult. discriminate Hresult.
Qed.

(** C1. The specification states that [detectMimeType] returns a kind
    exactly when the buffer begins with a declared signature of the kind
    (for WEBP, with the octets of [WEBP] at offsets 8 to 11), and no match
    otherwise.  The code compares the marker after [toString("ascii")],
    which clears the top bit of every octet: the buffer [marker_top_bits]
    matches no kind of the specification, and is detected as WEBP.
    [detectMimeType_declared] and [detectMimeType_declared_iff] give the
    part of the statement that holds. *)
Theorem detectMimeType_marker_top_bits :
  (forall k, declaredMatch k marker_top_bits = false)
  /\ detectMimeType marker_top_bits = Some image_webp.
Proof. split; [intros []; reflexivity | reflexivity]. Qed.

(** C4. The specification states that a buffer that begins with [RIFF] and
    has not the octets of [WEBP] at offsets 8 to 11 is never detected as
    WEBP.  The buffer [marker_last_top_bit] begins with [RIFF], its octet at
    offset 11 is 0xD0 and not 0x50, and it is detected as WEBP.
    [detectMimeType_riff], [detectMimeType_riff_short] and
    [detectMimeType_riff_other_marker] give the part of the statement that
    holds. *)
Theorem detectMimeType_riff_marker_last_top_bit :
  startsWith RIFF marker_last_top_bit = true
  /\ (12 <= length marker_last_top_bit)%nat
  /\ byteValue <$> slice 8 12 marker_last_top_bit <> WEBP_octets
  /\ detectMimeType marker_last_top_bit = Some image_webp.
Proof. split_and!; [reflexivity | simpl; lia | discriminate | reflexivity]. Qed.


(** ** Further properties of the detection *)

Section DetectionWindow.

Implicit Types (buffer extra : Buffer) (sig : list Z) (k : AllowedMimeType).

Lemma option_eq_Some {A : Type} (o o' : option A) :
  (forall a, o = Some a <-> o' = Some a) -> o = o'.
Proof.
  intros H. destruct o as [a|], o' as [a'|]; try done.
  - by apply H.
  - symmetry. by apply H.
  - by apply H.
Qed.

Lemma declaredSignatures_length k :
  Forall (fun sig => (length sig <= decidingLength k)%nat)
         (declaredSignatures k).
Proof. destruct k; repeat constructor; simpl; lia. Qed.

Lemma startsWith_take sig buffer n :
  (length sig <= n)%nat -> startsWith sig (take n buffer) = startsWith sig buffer.
Proof.
  revert buffer n; induction sig as [|s sig IH]; intros [|b buffer] [|n];
    simpl; try done; try lia.
  intros H. rewrite IH by lia. done.
Qed.

Lemma startsWith_app sig buffer extra :
  startsWith sig buffer = true -> startsWith sig (buffer ++ extra) = true.
Proof.
  rewrite !startsWith_prefix, fmap_app. apply prefix_app_r.
Qed.

Lemma existsb_startsWith_take k buffer n :
  (decidingLength k <= n)%nat ->
  existsb (fun sig => startsWith sig (take n buffer)) (declaredSignatures k)
  = existsb (fun sig => startsWith sig buffer) (declaredSignatures k).
Proof.
  intros Hn. pose proof (declaredSignatures_length k) as H.
  induction H as [|sig sigs Hsig _ IH]; simpl; [done|].
  rewrite IH, startsWith_take by lia. done.
Qed.

Lemma markerDecodesToWEBP_take buffer n :
  (12 <= n)%nat ->
  markerDecodesToWEBP (take n buffer) = markerDecodesToWEBP buffer.
Proof.
  intros Hn. unfold markerDecodesToWEBP, slice.
  rewrite length_take.
  destruct (12 <=? length buffer)%nat eqn:E.
  - apply Nat.leb_le in E.
    rewrite (proj2 (Nat.leb_le 12 (n `min` length buffer))) by lia.
    cbn [andb]. do 2 f_equal.
    rewrite !take_drop_commute, take_take. do 2 f_equal. lia.
  - apply Nat.leb_gt in E.
    by rewrite (proj2 (Nat.leb_gt 12 (n `min` length buffer))) by lia.
Qed.

Lemma markerDecodesToWEBP_app buffer extra :
  markerDecodesToWEBP buffer = true ->
  markerDecodesToWEBP (buffer ++ extra) = true.
Proof.
  unfold markerDecodesToWEBP, slice.
  rewrite !andb_true_iff, !Nat.leb_le, length_app.
  intros [Hlen Hm]. split; [lia|].
  rewrite drop_app_le, take_app_le by (rewrite ?length_drop; lia). done.
Qed.

Lemma codeMatch_take k buffer n :
  (12 <= n)%nat -> codeMatch k (take n buffer) = codeMatch k buffer.
Proof.
  intros Hn. unfold codeMatch.
  rewrite existsb_startsWith_take by (destruct k; simpl; lia).
  destruct k; try done. by rewrite markerDecodesToWEBP_take.
Qed.

Lemma codeMatch_decidingLength k buffer :
  codeMatch k buffer = true -> (decidingLength k <= length buffer)%nat.
Proof.
  unfold codeMatch. rewrite andb_true_iff, existsb_exists.
  intros [(sig & Hin & Hs%startsWith_length) Hm].
  destruct k; simpl in Hin |- *;
    try (intuition subst; simpl in Hs; lia).
  apply andb_true_iff in Hm as [Hlen%Nat.leb_le _]. done.
Qed.

Lemma codeMatch_app k buffer extra :
  codeMatch k buffer = true -> codeMatch k (buffer ++ extra) = true.
Proof.
  unfold codeMatch. rewrite !andb_true_iff, !existsb_exists.
  intros [(sig & Hin & Hs) Hm]. split.
  - exists sig. split; [done|]. by apply startsWith_app.
  - destruct k; try done. by apply markerDecodesToWEBP_app.
Qed.

End DetectionWindow.

(** X1. [isAllowedMimeType] is true exactly for the four strings of the type
    [AllowedMimeType], compared octet by octet (so the upper-case spelling
    of one of them is refused), and every kind that [detectMimeType] returns
    passes it. *)
Theorem isAllowedMimeType_spec (mimeType : string) (buffer : Buffer) :
  (isAllowedMimeType mimeType = true
     <-> exists k, mimeType = mimeTypeString k)
  /\ (forall k, detectMimeType buffer = Some k ->
               isAllowedMimeType (mimeTypeString k) = true)
  /\ isAllowedMimeType "IMAGE/PNG" = false
  /\ isAllowedMimeType "" = false.
Proof.
  split_and!; [|by intros [] _|done|done].
  unfold isAllowedMimeType, ALLOWED_MIME_TYPES. rewrite existsb_exists. split.
  - intros (s & Hin & Heq%String.eqb_eq). subst s. simpl in Hin.
    destruct Hin as [<-|[<-|[<-|[<-|[]]]]];
      [by exists image_png | by exists image_jpeg
      | by exists image_gif | by exists image_webp].
  - intros [k ->]. exists (mimeTypeString k). rewrite String.eqb_refl.
    split; [|done]. destruct k; simpl; tauto.
Qed.

Lemma isAllowedMimeType_spec_witness :
  isAllowedMimeType (mimeTypeString image_webp) = true.
Proof.
  destruct (isAllowedMimeType_spec "image/webp" riff_webp) as (_ & H & _).
  apply H. reflexivity.
Defined.

(** X2. [getFileExtension] gives different extensions to different kinds,
    and every extension is a dot followed by at least three characters; the
    extension of a detected kind therefore identifies the kind. *)
Theorem getFileExtension_injective (k k' : AllowedMimeType) :
  (getFileExtension k = getFileExtension k' -> k = k')
  /\ (exists rest, getFileExtension k = String "." rest
                  /\ (3 <= String.length rest)%nat).
Proof.
  split.
  - destruct k, k'; simpl; intros H; first [done | discriminate H].
  - destruct k; simpl; eexists; (split; [reflexivity | simpl; lia]).
Qed.

Lemma getFileExtension_injective_witness : image_gif = image_gif.
Proof.
  apply (getFileExtension_injective image_gif image_gif). reflexivity.
Defined.

(** X3. [detectMimeType] looks at no octet beyond the first twelve: the
    buffer and its first [n] octets get the same answer for every
    [n >= 12]. *)
Theorem detectMimeType_first_twelve (buffer : Buffer) (n : nat)
    (Hn : (12 <= n)%nat) :
  detectMimeType (take n buffer) = detectMimeType buffer.
Proof.
  apply option_eq_Some. intros k.
  by rewrite !detectMimeType_codeMatch, codeMatch_take.
Qed.

Lemma detectMimeType_first_twelve_witness :
  detectMimeType (take 12 (riff_webp ++ [x00; xff; x10]))
  = detectMimeType (riff_webp ++ [x00; xff; x10]).
Proof. apply detectMimeType_first_twelve. lia. Defined.

(** X4. A buffer detected as a kind is at least as long as what decides the
    kind: 8 octets for PNG, 4 for JPEG, 6 for GIF, 12 for WEBP.  A buffer of
    fewer than 4 octets, the empty one included, is never detected. *)
Theorem detectMimeType_length (buffer : Buffer) :
  (forall k, detectMimeType buffer = Some k ->
             (decidingLength k <= length buffer)%nat)
  /\ ((length buffer < 4)%nat -> detectMimeType buffer = None).
Proof.
  assert (forall k, detectMimeType buffer = Some k ->
                    (decidingLength k <= length buffer)%nat) as H.
  { intros k Hk. by apply codeMatch_decidingLength, detectMimeType_codeMatch. }
  split; [done|]. intros Hlen.
  destruct (detectMimeType buffer) as [k|] eqn:E; [|done].
  specialize (H k eq_refl). destruct k; simpl in H; lia.
Qed.

Lemma detectMimeType_length_witness :
  detectMimeType [xff; xd8; xff] = None.
Proof.
  destruct (detectMimeType_length [xff; xd8; xff]) as [_ H].
  apply H. simpl. lia.
Defined.

(** X5. Detection is stable under appending: when a buffer is detected as a
    kind, so is every buffer that begins with it. *)
Theorem detectMimeType_append (buffer extra : Buffer) (k : AllowedMimeType)
    (Hk : detectMimeType buffer = Some k) :
  detectMimeType (buffer ++ extra) = Some k.
Proof.
  apply detectMimeType_codeMatch, codeMatch_app.
  by apply detectMimeType_codeMatch.
Qed.

Lemma detectMimeType_append_witness :
  detectMimeType (gif_header ++ [x2c; x00; x3b]) = Some image_gif.
Proof. apply detectMimeType_append. reflexivity. Defined.

(** ** Further properties of the batch validator *)

Section Batches.

Implicit Types (file : File) (files : list File) (log : list File).

Lemma outcome_accepted file : valid (outcome file) = true <-> accepted file.
Proof. apply outcome_valid. Qed.

Lemma sumOfSizes_app files files' :
  sumOfSizes (files ++ files') = sumOfSizes files + sumOfSizes files'.
Proof.
  induction files as [|f files IH]; [done|].
  rewrite <- app_comm_cons, !sumOfSizes_cons, IH. lia.
Qed.

Lemma sumOfSizes_Permutation files files' :
  files ≡ₚ files' -> sumOfSizes files = sumOfSizes files'.
Proof.
  induction 1 as [|f l l' _ IH|f g l|l l' l'' _ IH _ IH'];
    rewrite ?sumOfSizes_cons; lia.
Qed.

Lemma sumOfSizes_nonneg files :
  Forall (fun f => 0 <= File.size f) files -> 0 <= sumOfSizes files.
Proof.
  induction 1 as [|f files Hf _ IH]; [done|]. rewrite sumOfSizes_cons. lia.
Qed.

Lemma sumOfSizes_accepted files :
  Forall accepted files ->
  sumOfSizes files <= Z.of_nat (length files) * MAX_FILE_SIZE.
Proof.
  induction 1 as [|f files [Hf%validateFileSize_iff _] _ IH]; [done|].
  rewrite sumOfSizes_cons. cbn [length]. lia.
Qed.

Lemma Forall_outcome_accepted files :
  Forall (fun f => valid (outcome f) = true) files <-> Forall accepted files.
Proof. apply Forall_iff. intros f. apply outcome_accepted. Qed.

Lemma validateFiles_valid files log :
  valid (result (fst (validateFiles files log))) = true <->
  sumOfSizes files <= MAX_TOTAL_SIZE /\ Forall accepted files.
Proof.
  rewrite validateFiles_run, <- Forall_outcome_accepted.
  destruct files as [|f0 files0] eqn:E.
  { simpl. split; [|done]. intros _. split; [done | constructor]. }
  rewrite <- E. clear E f0 files0.
  destruct (validateTotalSize _) eqn:Htotal.
  - apply validateTotalSize_iff in Htotal.
    destruct (first_invalid files)
      as [Hall|(pre & f & post & -> & Hpre & Hf)].
    + rewrite validateEach_all_valid by done. simpl. tauto.
    + rewrite validateEach_first_invalid by done. simpl. rewrite Hf.
      split; [done|]. intros [_ Hall%Forall_app].
      destruct Hall as [_ Hall]. apply Forall_cons in Hall as [Hf' _].
      congruence.
  - simpl. split; [done|]. intros [Hsum%validateTotalSize_iff _]. congruence.
Qed.

Lemma validateFiles_log_prefix (files : list File) (log : list File) :
  exists n,
    snd (validateFiles files log) = log ++ take n files
    /\ Forall (fun f => validateFileSize (File.size f) = true) (take n files).
Proof.
  rewrite validateFiles_run. destruct files as [|f0 files0] eqn:E.
  { exists 0%nat. simpl. by rewrite app_nil_r. }
  rewrite <- E. clear E f0 files0.
  destruct (validateTotalSize _).
  - destruct (first_invalid files)
      as [Hall|(pre & f & post & -> & Hpre & Hf)].
    + exists (length files). rewrite validateEach_all_valid, firstn_all by done.
      split; [done|]. apply Forall_outcome_accepted in Hall.
      eapply Forall_impl; [exact Hall|]. by intros f [Hf _].
    + rewrite validateEach_first_invalid by done.
      apply Forall_outcome_accepted in Hpre.
      assert (Forall (fun f => validateFileSize (File.size f) = true) pre)
        as Hsizes.
      { eapply Forall_impl; [exact Hpre|]. by intros g [Hg _]. }
      unfold reads. rewrite validateFile_run.
      destruct (validateFileSize (File.size f)) eqn:Hsize.
      * exists (length (pre ++ [f])).
        rewrite (cons_middle f pre post), (app_assoc pre [f] post),
          take_app_length.
        assert (snd (match detectMimeType (File.content f) with
                     | Some k => (acceptedAs k, [] ++ [f])
                     | None => (rejectedWith (imageMessage (File.name f)),
                                [] ++ [f])
                     end) = [f]) as -> by (by destruct (detectMimeType _)).
        split; [done|]. apply Forall_app. split; [done|]. by constructor.
      * exists (length pre). rewrite take_app_length. simpl.
        by rewrite app_nil_r.
  - exists 0%nat. simpl. by rewrite app_nil_r.
Qed.

End Batches.

(** X6. [validateFiles] accepts a batch exactly when the sum of the declared
    sizes is at most [MAX_TOTAL_SIZE] and [validateFile] accepts every file
    (its declared size passes the size check and its content is detected as
    a kind). *)
Theorem validateFiles_accepts_iff (files : list File) (log : list File) :
  valid (result (fst (validateFiles files log))) = true <->
  sumOfSizes files <= MAX_TOTAL_SIZE
  /\ Forall (fun f => validateFileSize (File.size f) = true
                      /\ is_Some (detectMimeType (File.content f))) files.
Proof. apply validateFiles_valid. Qed.

(** X7. The cap on the total cannot reject a batch of at most four files
    that [validateFile] accepts one by one, since four files of
    [MAX_FILE_SIZE] reach [MAX_TOTAL_SIZE] exactly; five such files can be
    rejected. *)
Theorem validateFiles_up_to_four (files : list File) (log : list File)
    (Hcount : (length files <= 4)%nat)
    (Heach : Forall (fun f => valid (fst (validateFile f [])) = true) files) :
  valid (result (fst (validateFiles files log))) = true.
Proof.
  apply Forall_outcome_accepted in Heach.
  apply validateFiles_valid. split; [|done].
  pose proof (sumOfSizes_accepted files Heach) as H.
  unfold MAX_TOTAL_SIZE, MAX_FILE_SIZE in *. lia.
Qed.

Lemma validateFiles_up_to_four_witness :
  valid (result (fst (validateFiles (take 4 five_full_files) []))) = true
  /\ valid (result (fst (validateFiles five_full_files []))) = false.
Proof.
  split; [|reflexivity].
  apply validateFiles_up_to_four; [simpl; lia | repeat constructor].
Defined.

(** X8. A batch of one file whose declared size is at most
    [MAX_TOTAL_SIZE] gets the answer of [validateFile] for that file, with
    the file as the only validated entry when it is accepted.  A single
    file over [MAX_TOTAL_SIZE] is rejected with the message about the
    total, not with the message about the size of the file, and is not
    read. *)
Theorem validateFiles_single (file : File) (log : list File) :
  (File.size file <= MAX_TOTAL_SIZE ->
     validateFiles [file] log
     = (if valid (fst (validateFile file log))
        then acceptedBatch [(file, mimeType (fst (validateFile file log)))]
        else rejectedBatch (fst (validateFile file log)),
        snd (validateFile file log)))
  /\ (MAX_TOTAL_SIZE < File.size file ->
       validateFiles [file] log = (rejectedBatch (rejectedWith totalMessage), log)
       /\ fst (validateFile file log)
          = rejectedWith (sizeMessage (File.name file))).
Proof.
  rewrite validateFiles_run, (sumOfSizes_cons file []).
  change (sumOfSizes []) with 0. rewrite Z.add_0_r. split.
  - intros Hsize%validateTotalSize_iff. rewrite Hsize.
    cbn [validateEach]. unfold bind. rewrite validateFile_log.
    cbn [fst snd]. destruct (valid (outcome file)); reflexivity.
  - intros Hsize. destruct (validateTotalSize _) eqn:E.
    { apply validateTotalSize_iff in E. lia. }
    split; [done|]. rewrite validateFile_run.
    destruct (validateFileSize _) eqn:E'; [|done].
    apply validateFileSize_iff in E'.
    unfold MAX_TOTAL_SIZE, MAX_FILE_SIZE in *. lia.
Qed.

Lemma validateFiles_single_witness :
  validateFiles [photo] [] = (acceptedBatch [(photo, Some image_png)], [photo])
  /\ validateFiles [thirty_MiB] []
     = (rejectedBatch (rejectedWith totalMessage), []).
Proof.
  split.
  - destruct (validateFiles_single photo []) as [H _].
    apply H. unfold MAX_TOTAL_SIZE. simpl. lia.
  - destruct (validateFiles_single thirty_MiB []) as [_ H].
    destruct H as [H _]; [unfold MAX_TOTAL_SIZE; simpl; lia | exact H].
Defined.

(** X9. Whether [validateFiles] accepts a batch does not depend on the order
    of the files: a batch and a permutation of it are both accepted or both
    rejected (the message of a rejection and the order of the validated
    entries follow the order of the input). *)
Theorem validateFiles_permutation (files files' : list File)
    (log log' : list File) (Hperm : files ≡ₚ files') :
  valid (result (fst (validateFiles files log)))
  = valid (result (fst (validateFiles files' log'))).
Proof.
  apply eq_true_iff_eq. rewrite !validateFiles_valid.
  rewrite (sumOfSizes_Permutation _ _ Hperm). by rewrite Hperm.
Qed.

Lemma validateFiles_permutation_witness :
  valid (result (fst (validateFiles [photo; sound; animation] [])))
  = valid (result (fst (validateFiles [sound; animation; photo] []))).
Proof.
  apply validateFiles_permutation.
  change ([photo] ++ [sound; animation] ≡ₚ [sound; animation] ++ [photo]).
  apply Permutation_app_comm.
Defined.

(** X10. The files [validateFiles] reads are a beginning of its input, read
    in order and once each, and every file it reads has passed the size
    check: no file over [MAX_FILE_SIZE] is loaded. *)
Theorem validateFiles_reads_prefix (files : list File) (log : list File) :
  exists n,
    snd (validateFiles files log) = log ++ take n files
    /\ Forall (fun f => validateFileSize (File.size f) = true) (take n files).
Proof. apply validateFiles_log_prefix. Qed.

(** X11. When no declared size is negative, the declared sizes of the files
    that [validateFiles] reads sum to at most [MAX_TOTAL_SIZE]. *)
Theorem validateFiles_reads_budget (files : list File) (log : list File)
    (Hsizes : Forall (fun f => 0 <= File.size f) files) :
  sumOfSizes (drop (length log) (snd (validateFiles files log)))
  <= MAX_TOTAL_SIZE.
Proof.
  destruct (validateFiles_log_prefix files log) as (n & Hreads & _).
  rewrite Hreads, drop_app_length.
  rewrite validateFiles_run in Hreads.
  destruct files as [|f0 files0] eqn:E.
  { by rewrite take_nil. }
  rewrite <- E in *. clear E f0 files0.
  destruct (validateTotalSize _) eqn:Htotal.
  - apply validateTotalSize_iff in Htotal.
    rewrite <- (take_drop n files), sumOfSizes_app in Htotal.
    rewrite <- (take_drop n files) in Hsizes.
    apply Forall_app in Hsizes as [_ Hrest].
    apply sumOfSizes_nonneg in Hrest. lia.
  - simpl in Hreads. rewrite <- (app_nil_r log) in Hreads at 1.
    apply app_inv_head in Hreads. by rewrite <- Hreads.
Qed.

Lemma validateFiles_reads_budget_witness :
  sumOfSizes (drop 0 (snd (validateFiles five_full_files []))) <= MAX_TOTAL_SIZE.
Proof.
  apply (validateFiles_reads_budget five_full_files []).
  repeat constructor; discriminate.
Defined.

(** ** Storage *)

Section StorageFacts.

Implicit Types (env : gmap string string) (st : Storage) (send : Send).

Lemma not_false (value : option string) :
  not_ value = false <-> exists text, value = Some text /\ text <> ""%string.
Proof.
  destruct value as [text|]; simpl.
  - rewrite <- not_true_iff_false, String.eqb_eq. split.
    + intros H. by exists text.
    + by intros (t & [= <-] & H).
  - split; [done | by intros (t & H & _)].
Qed.

Lemma orElse_not_empty (value : option string) (fallback : string) :
  fallback <> ""%string -> orElse value fallback <> ""%string.
Proof.
  intros H. destruct value as [text|]; simpl; [|done].
  destruct (String.eqb text "") eqn:E; [done|]. by apply String.eqb_neq.
Qed.

Lemma getConfig_run env :
  getConfig env =
  if not_ (env !! "MINIO_ENDPOINT"%string)
     || not_ (env !! "MINIO_ACCESS_KEY"%string)
     || not_ (env !! "MINIO_SECRET_KEY"%string)
  then Thrown (Error missingConfiguration)
  else Returned
         {| endpoint := env !! "MINIO_ENDPOINT"%string;
            accessKey := env !! "MINIO_ACCESS_KEY"%string;
            secretKey := env !! "MINIO_SECRET_KEY"%string;
            bucket := orElse (env !! "MINIO_BUCKET"%string) "uploads";
            region := orElse (env !! "MINIO_REGION"%string) "us-east-1" |}.
Proof. reflexivity. Qed.

(** With a configuration, [getS3Client] returns [clientFor] and leaves it in
    [s3Client]. *)
Lemma getS3Client_configured env st config :
  getConfig env = Returned config ->
  getS3Client env st
  = (Returned (clientFor config st),
     {| s3Client := Some (clientFor config st); sent := sent st |}).
Proof.
  intros H. unfold getS3Client, clientFor. destruct st as [[client|] calls];
    simpl; [done|]. by rewrite H.
Qed.

Lemma getS3Client_unconfigured env st e :
  getConfig env = Thrown e ->
  getS3Client env st
  = match s3Client st with
    | Some client => (Returned client, st)
    | None => (Thrown e, st)
    end.
Proof.
  intros H. unfold getS3Client. destruct (s3Client st); [done|].
  by rewrite H.
Qed.

End StorageFacts.

(** X12. [getConfig] returns exactly when [MINIO_ENDPOINT],
    [MINIO_ACCESS_KEY] and [MINIO_SECRET_KEY] are all set to a string that
    is not empty; in every other case, a variable set to the empty string
    included, it throws the error that names the three variables. *)
Theorem getConfig_returns_iff (env : gmap string string) :
  ((exists config, getConfig env = Returned config) <->
     forall name, name ∈ requiredVariables ->
       exists text, env !! name = Some text /\ text <> ""%string)
  /\ (forall e, getConfig env = Thrown e -> e = Error missingConfiguration).
Proof.
  rewrite getConfig_run.
  destruct (not_ (env !! "MINIO_ENDPOINT"%string)) eqn:E1;
    [|destruct (not_ (env !! "MINIO_ACCESS_KEY"%string)) eqn:E2;
      [|destruct (not_ (env !! "MINIO_SECRET_KEY"%string)) eqn:E3]];
    cbn [orb].
  4: { split; [|done]. split; [|by eauto]. intros _ name Hname.
       unfold requiredVariables in Hname.
       repeat (apply elem_of_cons in Hname as [->|Hname]);
         [by apply not_false..|by apply elem_of_nil in Hname]. }
  all: split; [|by intros e [= <-]].
  all: split; [by intros [config H]|]; intros H.
  - assert (not_ (env !! "MINIO_ENDPOINT"%string) = false); [|congruence].
    apply not_false, H. unfold requiredVariables. set_solver.
  - assert (not_ (env !! "MINIO_ACCESS_KEY"%string) = false); [|congruence].
    apply not_false, H. unfold requiredVariables. set_solver.
  - assert (not_ (env !! "MINIO_SECRET_KEY"%string) = false); [|congruence].
    apply not_false, H. unfold requiredVariables. set_solver.
Qed.

Lemma getConfig_returns_iff_witness :
  (exists config, getConfig sample_env = Returned config)
  /\ getConfig (delete "MINIO_SECRET_KEY"%string sample_env)
     = Thrown (Error missingConfiguration).
Proof.
  split; [|reflexivity].
  destruct (getConfig_returns_iff sample_env) as [[_ H] _]. apply H.
  intros name Hname. unfold requiredVariables in Hname.
  repeat (apply elem_of_cons in Hname as [->|Hname]);
    [eexists; split; [reflexivity | discriminate]..
    |by apply elem_of_nil in Hname].
Defined.

(** X13. In the configuration [getConfig] returns, the endpoint and the two
    keys are the values of the environment, and the bucket and the region
    are never empty: a variable [MINIO_BUCKET] or [MINIO_REGION] that is
    missing or empty gives [uploads] and [us-east-1], and one that is set
    to a string that is not empty is taken as it is. *)
Theorem getConfig_fields (env : gmap string string) (config : StorageConfig)
    (Hconfig : getConfig env = Returned config) :
  endpoint config = env !! "MINIO_ENDPOINT"%string
  /\ accessKey config = env !! "MINIO_ACCESS_KEY"%string
  /\ secretKey config = env !! "MINIO_SECRET_KEY"%string
  /\ bucket config <> ""%string /\ region config <> ""%string
  /\ (not_ (env !! "MINIO_BUCKET"%string) = true ->
      bucket config = "uploads"%string)
  /\ (not_ (env !! "MINIO_REGION"%string) = true ->
      region config = "us-east-1"%string)
  /\ (forall text, text <> ""%string ->
        (env !! "MINIO_BUCKET"%string = Some text -> bucket config = text)
        /\ (env !! "MINIO_REGION"%string = Some text -> region config = text)).
Proof.
  rewrite getConfig_run in Hconfig.
  destruct (_ || _); [done|]. injection Hconfig as <-. cbn.
  split_and!; try done.
  - by apply orElse_not_empty.
  - by apply orElse_not_empty.
  - destruct (env !! "MINIO_BUCKET"%string) as [t|]; simpl; [|done].
    by intros ->.
  - destruct (env !! "MINIO_REGION"%string) as [t|]; simpl; [|done].
    by intros ->.
  - intros text Htext%String.eqb_neq. split; intros ->; simpl;
      by rewrite Htext.
Qed.

Lemma getConfig_fields_witness :
  exists config,
    getConfig sample_env = Returned config
    /\ bucket config = "uploads"%string
    /\ endpoint config = Some "http://localhost:9000"%string.
Proof.
  eexists. split; [reflexivity|].
  destruct (getConfig_fields sample_env _ eq_refl)
    as (He & _ & _ & _ & _ & Hb & _).
  split; [apply Hb; reflexivity | exact He].
Defined.

(** X14. [getS3Client] builds the client once.  When it returns a client it
    leaves that client in [s3Client], sends nothing, and every later call
    returns the same client whatever the environment has become; when it
    throws, no client was there and the state is unchanged, so that a later
    call tries again. *)
Theorem getS3Client_once (env : gmap string string) (st : Storage) :
  (forall client st',
     getS3Client env st = (Returned client, st') ->
     s3Client st' = Some client /\ sent st' = sent st
     /\ forall env', getS3Client env' st' = (Returned client, st'))
  /\ (forall e st',
       getS3Client env st = (Thrown e, st') ->
       st' = st /\ s3Client st = None /\ getConfig env = Thrown e).
Proof.
  unfold getS3Client. destruct st as [[cached|] calls]; cbn.
  - split; [|done]. intros client st' [= <- <-]. cbn. done.
  - destruct (getConfig env) as [config|e0]; split.
    + intros client st' [= <- <-]. cbn. done.
    + done.
    + done.
    + by intros e st' [= <- <-].
Qed.

Lemma getS3Client_once_witness :
  exists client st',
    getS3Client sample_env fresh = (Returned client, st')
    /\ getS3Client other_env st' = (Returned client, st')
    /\ getS3Client ∅ st' = (Returned client, st')
    /\ client_endpoint client = Some "http://localhost:9000"%string.
Proof.
  do 2 eexists. split; [reflexivity|].
  destruct (getS3Client_once sample_env fresh) as [H _].
  destruct (H _ _ eq_refl) as (_ & _ & Hlater).
  split_and!; [apply Hlater | apply Hlater | reflexivity].
Defined.

(** X15. Without a configuration nothing reaches the storage service:
    [uploadFile], [deleteFile] and [downloadFile] throw the error of
    [getConfig] and leave the state as it was, also when a client built
    earlier is still in [s3Client]. *)
Theorem storage_needs_configuration (send : Send) (env : gmap string string)
    (st : Storage) (e : Exception) (key : string) (buffer : Buffer)
    (contentType : string) (Hconfig : getConfig env = Thrown e) :
  uploadFile send env key buffer contentType st = (Thrown e, st)
  /\ deleteFile send env key st = (Thrown e, st)
  /\ downloadFile send env key st = (Thrown e, st).
Proof.
  unfold uploadFile, deleteFile, downloadFile, andThen, pure_.
  rewrite (getS3Client_unconfigured _ _ _ Hconfig), Hconfig.
  by destruct (s3Client st).
Qed.

Lemma storage_needs_configuration_witness :
  exists client st,
    getS3Client sample_env fresh = (Returned client, st)
    /\ uploadFile no_body ∅ "a/1/2-x.png" png_header "image/png" st
       = (Thrown (Error missingConfiguration), st).
Proof.
  do 2 eexists. split; [reflexivity|].
  apply storage_needs_configuration. reflexivity.
Defined.

(** X16. With a configuration, [uploadFile] and [deleteFile] call
    [client.send] exactly once, with the client of [s3Client] if there is
    one and a new client otherwise, and with a command for the bucket the
    environment names at the time of the call; they return when the call
    returns and throw what it throws. *)
Theorem storage_sends_once (send : Send) (env : gmap string string)
    (st : Storage) (config : StorageConfig) (key : string) (buffer : Buffer)
    (contentType : string) (Hconfig : getConfig env = Returned config) :
  uploadFile send env key buffer contentType st
  = (match send (clientFor config st)
             (PutObjectCommand (bucket config) key buffer contentType) with
     | Returned _ => Returned tt
     | Thrown e => Thrown e
     end,
     afterSend (clientFor config st)
       (PutObjectCommand (bucket config) key buffer contentType) st)
  /\ deleteFile send env key st
     = (match send (clientFor config st)
                (DeleteObjectCommand (bucket config) key) with
        | Returned _ => Returned tt
        | Thrown e => Thrown e
        end,
        afterSend (clientFor config st)
          (DeleteObjectCommand (bucket config) key) st).
Proof.
  unfold uploadFile, deleteFile, andThen, pure_, client_send, afterSend.
  rewrite (getS3Client_configured _ _ _ Hconfig), Hconfig. cbn.
  split; by destruct (send _ _).
Qed.

Lemma storage_sends_once_witness :
  exists client,
    fst (getS3Client sample_env fresh) = Returned client
    /\ snd (uploadFile no_body other_env "k" png_header "image/png"
              (snd (getS3Client sample_env fresh)))
       = {| s3Client := Some client;
            sent := [(client,
                      PutObjectCommand "media" "k" png_header "image/png")] |}.
Proof.
  eexists. split; [reflexivity|].
  destruct (storage_sends_once no_body other_env
              (snd (getS3Client sample_env fresh))
              _ "k" png_header "image/png" eq_refl) as [H _].
  rewrite H. reflexivity.
Defined.



(** ** Storage keys *)

Section Keys.

Implicit Types (text filename : JSString) (unit : N).

(** Replacing by one code unit is a map over the code units. *)
Lemma replaceUnits_one (inClass : N -> bool) (replacement : N) text :
  replaceUnits inClass [replacement] text
  = (fun unit => if inClass unit then replacement else unit) <$> text.
Proof.
  unfold replaceUnits. induction text as [|unit text IH]; [done|].
  cbn. rewrite <- IH. by destruct (inClass unit).
Qed.

Lemma safeName_fmap filename : safeName filename = safeUnit <$> filename.
Proof.
  unfold safeName. change (units "_") with [95%N].
  rewrite replaceUnits_one. apply list_fmap_ext. intros _ unit _.
  unfold safeUnit. by destruct (isKeyUnit unit).
Qed.

Lemma safeUnit_segment unit : isSegmentUnit (safeUnit unit) = true.
Proof.
  unfold safeUnit, isSegmentUnit. destruct (isKeyUnit unit) eqn:E.
  - by rewrite E.
  - reflexivity.
Qed.

Lemma safeUnit_fixed unit : safeUnit unit = unit <-> isSegmentUnit unit = true.
Proof.
  unfold safeUnit, isSegmentUnit. destruct (isKeyUnit unit); cbn.
  - done.
  - rewrite N.eqb_eq. split; congruence.
Qed.

Lemma digitUnits_key (d : Decimal.uint) :
  Forall (fun unit => isKeyUnit unit = true) (digitUnits d).
Proof. induction d; constructor; done. Qed.

Lemma numberToString_key (n : Z) :
  Forall (fun unit => isKeyUnit unit = true) (numberToString n).
Proof.
  unfold numberToString. destruct (Z.to_int n); [|constructor; [done|]];
    apply digitUnits_key.
Qed.

Lemma keySegment_units (now : Z) filename :
  Forall (fun unit => isSegmentUnit unit = true) (keySegment now filename).
Proof.
  unfold keySegment. rewrite !Forall_app. split_and!.
  - eapply Forall_impl; [apply numberToString_key|].
    intros unit H. unfold isSegmentUnit. by rewrite H.
  - by repeat constructor.
  - rewrite safeName_fmap, Forall_fmap. apply Forall_true.
    intros unit. apply safeUnit_segment.
Qed.

End Keys.

(** X18. The key [generateStorageKey] builds is the folder, a slash, the
    entity, a slash and a last segment made of the time, a hyphen and the
    safe name.  Whatever the file name is, the last segment has only code
    units of [a-zA-Z0-9.-] and underscores: it has no slash, it holds a
    hyphen, so it is neither [.] nor [..], and it is as long as the digits
    of the time, the hyphen and the file name together.  The folder and the
    entity are taken as they are. *)
Theorem generateStorageKey_segment (now : Z)
    (folder entityId filename : JSString) :
  generateStorageKey now folder entityId filename
  = folder ++ units "/" ++ entityId ++ units "/" ++ keySegment now filename
  /\ Forall (fun unit => isSegmentUnit unit = true) (keySegment now filename)
  /\ (47%N ∉ keySegment now filename)
  /\ (45%N ∈ keySegment now filename)
  /\ length (keySegment now filename)
     = (length (numberToString now) + 1 + length filename)%nat.
Proof.
  split_and!.
  - unfold generateStorageKey, keySegment. by rewrite !app_assoc.
  - apply keySegment_units.
  - intros Hin. pose proof (keySegment_units now filename) as H.
    rewrite Forall_forall in H. by specialize (H _ Hin).
  - unfold keySegment. rewrite !elem_of_app. right. left.
    apply list_elem_of_singleton. reflexivity.
  - unfold keySegment. rewrite !length_app, safeName_fmap, length_fmap.
    simpl. lia.
Qed.

(** X19. [safeName] keeps the length of the file name and changes it code
    unit by code unit: a unit of [a-zA-Z0-9.-] stays and every other unit
    becomes an underscore.  Applying it twice is applying it once, and the
    names it leaves unchanged are exactly those made of [a-zA-Z0-9.-] and
    underscores. *)
Theorem safeName_spec (filename : JSString) :
  length (safeName filename) = length filename
  /\ (forall i, safeName filename !! i = safeUnit <$> filename !! i)
  /\ safeName (safeName filename) = safeName filename
  /\ (safeName filename = filename
      <-> Forall (fun unit => isSegmentUnit unit = true) filename).
Proof.
  rewrite !safeName_fmap. split_and!.
  - apply length_fmap.
  - intros i. apply list_lookup_fmap.
  - rewrite <- list_fmap_compose. apply list_fmap_ext. intros _ unit _.
    cbn. apply safeUnit_fixed, safeUnit_segment.
  - rewrite <- (list_fmap_id filename) at 2. split.
    + intros H. apply Forall_lookup. intros i unit Hi.
      apply (f_equal (fun l => l !! i)) in H. cbv beta in H.
      rewrite !list_lookup_fmap, Hi in H. cbn in H.
      apply safeUnit_fixed. congruence.
    + intros H. apply Forall_fmap_ext_1.
      eapply Forall_impl; [exact H|]. intros unit Hu. by apply safeUnit_fixed.
Qed.

(** ** The names of the setup script *)

Section SetupNames.

Implicit Types (text answer lowerBaseName : JSString).

Lemma dbName_fmap text :
  dbName text = (fun unit => if (unit =? 45)%N then 95%N else unit) <$> text.
Proof. unfold dbName. change (units "_") with [95%N]. apply replaceUnits_one. Qed.

Lemma defaultName_fmap text :
  defaultName text
  = (fun unit => if isNameUnit unit then unit else 45%N) <$> text.
Proof.
  unfold defaultName. change (units "-") with [45%N].
  rewrite replaceUnits_one. apply list_fmap_ext. intros _ unit _.
  by destruct (isNameUnit unit).
Qed.

End SetupNames.

(** X20. The database name of the setup script has the length of the
    project name and no hyphen, whatever the user answered.  When the
    answer is empty the project name is the default name, which has only
    code units of [a-z0-9-], and the database name then has only code units
    of [a-z0-9_] and the length of the base name of the directory.  An
    answer that is not empty is taken as it is. *)
Theorem setup_names (answer lowerBaseName : JSString) :
  length (dbName (projectName answer (defaultName lowerBaseName)))
  = length (projectName answer (defaultName lowerBaseName))
  /\ (45%N ∉ dbName (projectName answer (defaultName lowerBaseName)))
  /\ Forall (fun unit => isNameUnit unit = true) (defaultName lowerBaseName)
  /\ (answer = [] ->
      Forall (fun unit => isDbUnit unit = true)
             (dbName (projectName answer (defaultName lowerBaseName)))
      /\ length (dbName (projectName answer (defaultName lowerBaseName)))
         = length lowerBaseName)
  /\ (answer <> [] ->
      projectName answer (defaultName lowerBaseName) = answer).
Proof.
  assert (Forall (fun unit => isNameUnit unit = true)
                 (defaultName lowerBaseName)) as Hdefault.
  { rewrite defaultName_fmap, Forall_fmap. apply Forall_true. intros unit.
    cbn. by destruct (isNameUnit unit) eqn:E. }
  split_and!.
  - by rewrite dbName_fmap, length_fmap.
  - rewrite dbName_fmap, list_elem_of_fmap. intros (unit & Hu & _).
    destruct (unit =? 45)%N eqn:E; [done|]. apply N.eqb_neq in E. congruence.
  - done.
  - intros ->. cbn [projectName]. split.
    + rewrite dbName_fmap, Forall_fmap.
      eapply Forall_impl; [exact Hdefault|]. intros unit Hu. cbn.
      destruct (unit =? 45)%N eqn:E; [done|].
      unfold isNameUnit in Hu. unfold isDbUnit.
      rewrite E, orb_false_r in Hu. by rewrite Hu.
    + by rewrite dbName_fmap, defaultName_fmap, !length_fmap.
  - by destruct answer.
Qed.

Lemma setup_names_witness :
  dbName (projectName [] (defaultName (units "my app.v2")))
  = units "my_app_v2"
  /\ projectName (units "Shop") (defaultName (units "my app.v2"))
     = units "Shop".
Proof.
  destruct (setup_names [] (units "my app.v2")) as (_ & _ & _ & H & _).
  destruct (H eq_refl) as [_ Hlen].
  destruct (setup_names (units "Shop") (units "my app.v2"))
    as (_ & _ & _ & _ & H').
  split; [reflexivity | apply H'; discriminate].
Defined.

(** ** The wait for PostgreSQL *)

Section Wait.

Variable isReady : nat -> bool.

Lemma waitLoop_ends (fuel attempts : nat) :
  (attempts <= 30)%nat -> (30 - attempts < fuel)%nat ->
  exists final,
    waitLoop isReady fuel attempts = Some final
    /\ (attempts <= final <= 30)%nat
    /\ (forall i, (attempts <= i < final)%nat -> isReady i = false)
    /\ ((final < 30)%nat -> isReady final = true).
Proof.
  revert attempts; induction fuel as [|fuel IH]; intros attempts Hle Hfuel;
    [lia|]. cbn [waitLoop].
  destruct (attempts <? 30)%nat eqn:Hlt.
  - apply Nat.ltb_lt in Hlt. destruct (isReady attempts) eqn:Hready.
    + exists attempts. split; [done|]. split; [lia|].
      split; [intros i Hi; lia | done].
    + destruct (IH (S attempts)) as (final & Hrun & Hrange & Hfail & Hok);
        [lia..|].
      exists final. split; [done|]. split; [lia|]. split; [|exact Hok].
      intros i Hi. destruct (decide (i = attempts)) as [->|Hne]; [done|].
      apply Hfail. lia.
  - apply Nat.ltb_ge in Hlt. exists attempts.
    split; [done|]. split; [lia|]. split; [intros i Hi|]; lia.
Qed.

End Wait.

(** X21. The loop of the setup script that waits for PostgreSQL ends: it
    probes at most 30 times.  It stops at the first probe that succeeds,
    with [attempts] the number of probes that failed before, and the script
    gives up exactly when the first 30 probes all fail. *)
Theorem waitLoop_bounded (isReady : nat -> bool) :
  exists attempts,
    (forall fuel, (31 <= fuel)%nat ->
                  waitLoop isReady fuel 0 = Some attempts)
    /\ (attempts <= 30)%nat
    /\ (forall i, (i < attempts)%nat -> isReady i = false)
    /\ (givesUp attempts = false -> isReady attempts = true)
    /\ (givesUp attempts = true
        <-> forall i, (i < 30)%nat -> isReady i = false).
Proof.
  destruct (waitLoop_ends isReady 31 0) as (final & Hrun & Hrange & Hfail & Hok);
    [lia..|].
  exists final. split_and!.
  - intros fuel Hfuel.
    destruct (waitLoop_ends isReady fuel 0) as (final' & Hrun' & Hrange' & Hfail' & Hok');
      [lia..|].
    rewrite Hrun'. f_equal.
    destruct (Nat.lt_trichotomy final final') as [Hlt|[->|Hlt]]; [|done|].
    + rewrite Hfail' in Hok by lia. discriminate Hok. lia.
    + rewrite Hfail in Hok' by lia. discriminate Hok'. lia.
  - lia.
  - intros i Hi. apply Hfail. lia.
  - unfold givesUp. intros Hg%Nat.leb_gt. by apply Hok.
  - unfold givesUp. rewrite Nat.leb_le. split.
    + intros Hge i Hi. apply Hfail. lia.
    + intros Hall. destruct (decide (30 <= final)%nat) as [|Hlt]; [done|].
      rewrite Hall in Hok by lia. discriminate Hok. lia.
Qed.

Lemma waitLoop_bounded_witness :
  waitLoop (fun n => (n =? 3)%nat) 31 0 = Some 3%nat
  /\ waitLoop (fun _ => false) 31 0 = Some 30%nat.
Proof.
  split.
  - destruct (waitLoop_bounded (fun n => (n =? 3)%nat))
      as (attempts & Hrun & _).
    rewrite (Hrun 31%nat) by lia. symmetry. rewrite <- (Hrun 40%nat) by lia.
    reflexivity.
  - destruct (waitLoop_bounded (fun _ => false)) as (attempts & Hrun & _).
    rewrite (Hrun 31%nat) by lia. symmetry. rewrite <- (Hrun 40%nat) by lia.
    reflexivity.
Defined.

(** ** The session guards *)



(** ** The field errors of the registration form *)

Section FieldErrors.

Implicit Types (issue : ZodIssue) (issues : list ZodIssue)
  (fieldErrors : gmap string string) (name : string).

Lemma recordIssue_lookup fieldErrors issue name :
  recordIssue fieldErrors issue !! name
  = if decide (fieldOf issue = Some name) then Some (message issue)
    else fieldErrors !! name.
Proof.
  unfold recordIssue, fieldOf, setProperty.
  destruct (head (path issue)) as [key|]; [|by case_decide].
  destruct (truthyKey (Some key)); cbn [andb]; [|by case_decide].
  destruct (String.eqb (propertyName key) "__proto__") eqn:E; cbn [negb].
  - by case_decide.
  - rewrite lookup_insert. case_decide as H; case_decide as H'; try done.
    + by rewrite H in H'.
    + by injection H'.
Qed.

Lemma fold_recordIssue_lookup issues fieldErrors name :
  fold_left recordIssue issues fieldErrors !! name
  = match last (filter (fun issue => fieldOf issue = Some name) issues) with
    | Some issue => Some (message issue)
    | None => fieldErrors !! name
    end.
Proof.
  revert fieldErrors; induction issues as [|issue issues IH];
    intros fieldErrors; [done|].
  cbn [fold_left]. rewrite IH, recordIssue_lookup, filter_cons.
  case_decide; [|done]. rewrite last_cons. by destruct (last _).
Qed.

Lemma filter_none {A : Type} (P : A -> Prop) `{!forall x, Decision (P x)}
    (l : list A) :
  Forall (fun x => ~ P x) l -> filter P l = [].
Proof.
  induction 1 as [|x l Hx _ IH]; [done|].
  rewrite filter_cons. by case_decide.
Qed.

Lemma propertyName_index (index : N) :
  index <> 0%N -> propertyName (PathIndex index) <> ""%string.
Proof.
  intros Hindex. cbn. unfold numberToString.
  destruct index as [|p]; [done|]. cbn.
  pose proof (DecimalPos.Unsigned.to_uint_nonnil p) as Hp.
  destruct (Pos.to_uint p); done.
Qed.

Lemma fieldOf_not_empty issue : fieldOf issue <> Some ""%string.
Proof.
  unfold fieldOf. destruct (head (path issue)) as [[name|index]|]; [| |done].
  - cbn. destruct (String.eqb name "") eqn:E; cbn; [done|].
    destruct (negb _); [|done]. intros [= ->]. done.
  - cbn [truthyKey]. destruct (index =? 0)%N eqn:E; cbn [negb andb]; [done|].
    destruct (negb _); [|done]. intros [= H].
    apply N.eqb_neq in E. by apply (propertyName_index index).
Qed.

Lemma fieldOf_not_proto issue : fieldOf issue <> Some "__proto__"%string.
Proof.
  unfold fieldOf. destruct (head (path issue)) as [key|]; [|done].
  destruct (truthyKey (Some key)); cbn [andb]; [|done].
  destruct (String.eqb (propertyName key) "__proto__") eqn:E; cbn [negb];
    [done|].
  intros [= H]. rewrite H in E. done.
Qed.

End FieldErrors.

(** X23. After the loop over the issues of a failed registration,
    [fieldErrors] holds under each name the message of the last issue whose
    path begins with that name, and nothing when there is no such issue: a
    later issue for a field replaces an earlier one, and an issue without a
    path, or whose path begins with the empty string or with 0, is
    dropped.  Neither the empty name nor [__proto__] is ever a property of
    [fieldErrors]. *)
Theorem fieldErrors_last_wins (issues : list ZodIssue) (name : string) :
  fieldErrorsOf issues !! name
  = message
      <$> last (filter (fun issue => fieldOf issue = Some name) issues)
  /\ fieldErrorsOf issues !! ""%string = None
  /\ fieldErrorsOf issues !! "__proto__"%string = None.
Proof.
  unfold fieldErrorsOf. rewrite !fold_recordIssue_lookup, !lookup_empty.
  split_and!.
  - by destruct (last _).
  - rewrite filter_none; [done|].
    apply Forall_forall. intros issue _. apply fieldOf_not_empty.
  - rewrite filter_none; [done|].
    apply Forall_forall. intros issue _. apply fieldOf_not_proto.
Qed.

Example fieldErrors_sample :
  fieldErrorsOf sample_issues !! "email"%string = Some "Email is taken"%string
  /\ fieldErrorsOf sample_issues !! "password"%string
     = Some "Password must be at least 8 characters"%string
  /\ fieldErrorsOf sample_issues !! "name"%string = None.
Proof. split_and!; reflexivity. Qed.

(** ** The error page *)

(** X24. What [RouteErrorBoundary] shows.  The title is never empty.
    Outside development mode the description is never empty and the
    message of a thrown [Error] is not shown: every [Error], like every
    other value that is not a route error response, gets the generic title
    and description.  In development mode the message of an [Error] is the
    description, also when it is empty.  A route error response shows its
    status, and its status text in place of the default description
    whenever the status text is not empty, in both modes. *)
Theorem describeError_spec (DEV : bool) (error : RouteError) :
  title (describeError DEV error) <> ""%string
  /\ description (describeError false error) <> ""%string
  /\ (forall errorMessage,
        describeError false (ErrorObject errorMessage)
        = {| statusCode := None; title := genericTitle;
             description := genericDescription |}
        /\ describeError false OtherError
           = describeError false (ErrorObject errorMessage)
        /\ description (describeError true (ErrorObject errorMessage))
           = errorMessage)
  /\ (forall status statusText,
        describeError DEV (ErrorResponse status statusText)
        = describeError (negb DEV) (ErrorResponse status statusText)
        /\ statusCode (describeError DEV (ErrorResponse status statusText))
           = Some status
        /\ (statusText <> ""%string ->
            description (describeError DEV (ErrorResponse status statusText))
            = statusText)).
Proof.
  assert (forall text fallback,
            fallback <> ""%string -> textOr text fallback <> ""%string)
    as Hor.
  { intros text fallback H. unfold textOr.
    destruct (String.eqb text "") eqn:E; [done|]. by apply String.eqb_neq. }
  split_and!.
  - destruct error as [status statusText|errorMessage|]; cbn.
    + repeat (destruct (_ =? _)); done.
    + by destruct DEV.
    + done.
  - destruct error as [status statusText|errorMessage|]; cbn; [|done..].
    repeat (destruct (_ =? _)); cbn; by apply Hor.
  - done.
  - intros status statusText. split_and!.
    + done.
    + cbn. by repeat (destruct (_ =? _)).
    + intros Htext%String.eqb_neq. cbn.
      repeat (destruct (_ =? _)); cbn; unfold textOr; by rewrite Htext.
Qed.

Lemma describeError_spec_witness :
  description (describeError false (ErrorResponse 503 "Busy")) = "Busy"%string
  /\ title (describeError false (ErrorResponse 503 "Busy"))
     = "Error 503"%string.
Proof.
  destruct (describeError_spec false OtherError) as (_ & _ & _ & H).
  destruct (H 503 "Busy"%string) as (_ & _ & Hd).
  split; [apply Hd; discriminate | reflexivity].
Defined.

(** ** The decision and the declared metadata *)

(** X25. The decision of [validateFile] uses neither the declared name nor
    the declared MIME type: two files with the same declared size and the
    same content get the same [valid] flag and the same detected kind,
    whatever their names and declared types. *)
Theorem validateFile_ignores_name_and_type (f g : File)
    (log log' : list File)
    (Hsize : File.size f = File.size g)
    (Hcontent : File.content f = File.content g) :
  valid (fst (validateFile f log)) = valid (fst (validateFile g log'))
  /\ mimeType (fst (validateFile f log))
     = mimeType (fst (validateFile g log')).
Proof. by apply validateFile_same_content. Qed.

Lemma validateFile_ignores_name_and_type_witness :
  File.name photo <> File.name renamed_photo
  /\ File.type photo <> File.type renamed_photo
  /\ valid (fst (validateFile photo []))
     = valid (fst (validateFile renamed_photo [photo]))
  /\ mimeType (fst (validateFile photo []))
     = mimeType (fst (validateFile renamed_photo [photo])).
Proof.
  split; [discriminate|]. split; [discriminate|].
  apply validateFile_ignores_name_and_type; reflexivity.
Defined.

(** X26. A file that [validateFile] accepts as a kind has content that
    begins with a signature of that kind and, for WEBP, is at least twelve
    octets long with a marker at offsets 8 to 11 that decodes to [WEBP].
    For the kinds other than WEBP, and for WEBP when the octets at offsets
    8 to 11 are below 0x80, the content has matched the kind as the
    specification declares it. *)
Theorem validateFile_accepted_match (file : File) (log : list File)
    (k : AllowedMimeType)
    (Hvalid : valid (fst (validateFile file log)) = true)
    (Hkind : mimeType (fst (validateFile file log)) = Some k) :
  (exists sig, sig ∈ declaredSignatures k
               /\ sig `prefix_of` (byteValue <$> File.content file))
  /\ (k = image_webp ->
      (12 <= length (File.content file))%nat
      /\ low7 <$> slice 8 12 (File.content file) = WEBP_octets)
  /\ (k <> image_webp \/ markerIsSevenBit (File.content file) ->
      declaredMatch k (File.content file) = true).
Proof.
  pose proof (validateFile_accepted_codeMatch file log k Hvalid Hkind) as Hcode.
  split_and!.
  - unfold codeMatch in Hcode.
    apply andb_true_iff in Hcode as [(sig & Hin & Hs)%existsb_exists _].
    exists sig. split; [by apply list_elem_of_In | by apply startsWith_prefix].
  - intros ->. unfold codeMatch in Hcode.
    apply andb_true_iff in Hcode as [_ Hm]. by apply markerDecodesToWEBP_low7.
  - intros Hcase. apply detectMimeType_declared_iff; [done|].
    by apply detectMimeType_codeMatch.
Qed.

Lemma validateFile_accepted_match_witness :
  declaredMatch image_png (File.content photo) = true.
Proof.
  destruct (validateFile_accepted_match photo [] image_png eq_refl eq_refl)
    as (_ & _ & H).
  apply H. by left.
Defined.
